(** * An intrusive reference-counted pointer (include/intrusive_ptr.h)

    The header defines a counter base class [RefCountObject], the two free
    functions that are the only code touching the counter, and the pointer
    wrapper [intrusive_ptr].  The embedding is a state-and-error monad over
    a store with two kinds of cells: heap objects, addressed by what a raw
    [T*] holds, and [intrusive_ptr] instances, addressed by their own
    storage (what [this] and [&other] compare).  Undefined behaviour
    (reading through a null or dangling pointer, using an instance outside
    its lifetime) is the monad's failure. *)

From Stdlib Require Import ZArith List Lia Bool.
From stdpp Require Import base option gmap.

Local Open Scope Z_scope.

(** ** Data *)

(** Address of a heap object: the value of a non-null [T*]. *)
Definition addr := positive.

(** Storage of an [intrusive_ptr] instance: what [this == &other] compares. *)
Definition loc := positive.

Bind Scope positive_scope with addr loc.

(** A raw [T*]; [nullptr] is [None]. *)
Abbreviation raw_ptr := (option addr).

(** [uint32_t] arithmetic: values wrap around modulo [2^32]. *)
Definition UINT32_MODULUS : Z := 2 ^ 32.
Definition wrap32 (z : Z) : Z := z mod UINT32_MODULUS.

(** The tests' [struct Object : RefCountObject<Object>]: the base class
    member [m_ref_count] (a [uint32_t], [{ 0 }] by default) and the
    derived member [Value]. *)
Record Object : Type := mkObject {
  m_ref_count : Z;
  Value : Z
}.

Definition with_ref_count (c : Z) (o : Object) : Object :=
  {| m_ref_count := c; Value := Value o |}.

(** Ghost record of the calls made to the two counter functions. *)
Inductive call : Type :=
| CallAddRef (ptr : raw_ptr)
| CallRelease (ptr : raw_ptr).

(** The store.  [objs] are the live heap objects, [ptrs] the [m_pointer]
    member of every live [intrusive_ptr] instance, [calls] the ghost log
    (most recent call first). *)
Record state : Type := mkState {
  objs : gmap positive Object;
  ptrs : gmap positive raw_ptr;
  calls : list call
}.

Definition upd_objs (f : gmap positive Object -> gmap positive Object)
    (s : state) : state :=
  {| objs := f (objs s); ptrs := ptrs s; calls := calls s |}.

Definition upd_ptrs (f : gmap positive raw_ptr -> gmap positive raw_ptr)
    (s : state) : state :=
  {| objs := objs s; ptrs := f (ptrs s); calls := calls s |}.

Definition upd_calls (f : list call -> list call) (s : state) : state :=
  {| objs := objs s; ptrs := ptrs s; calls := f (calls s) |}.

(** ** The monad: state passing, [None] for undefined behaviour *)

Definition M (A : Type) : Type := state -> option (A * state).

Definition ret {A : Type} (x : A) : M A := fun s => Some (x, s).

Definition bind {A B : Type} (m : M A) (k : A -> M B) : M B :=
  fun s => match m s with
           | Some (x, s') => k x s'
           | None => None
           end.

Notation "x <- m ;; k" := (bind m (fun x => k))
  (at level 100, m at next level, right associativity).
Notation "m ;; k" := (bind m (fun _ => k))
  (at level 100, right associativity).

(** [*ptr] read as a value: the pointer must be non-null and its object alive. *)
Definition load (ptr : raw_ptr) : M Object :=
  fun s => match ptr with
           | Some a => match objs s !! a with
                       | Some o => Some (o, s)
                       | None => None
                       end
           | None => None
           end.

(** [*ptr = o]. *)
Definition store (ptr : raw_ptr) (o : Object) : M unit :=
  fun s => match ptr with
           | Some a => match objs s !! a with
                       | Some _ => Some (tt, upd_objs (insert a o) s)
                       | None => None
                       end
           | None => None
           end.

(** [delete ptr]: nothing on [nullptr], the end of a live object otherwise. *)
Definition delete_ (ptr : raw_ptr) : M unit :=
  fun s => match ptr with
           | Some a => match objs s !! a with
                       | Some _ => Some (tt, upd_objs (delete a) s)
                       | None => None
                       end
           | None => Some (tt, s)
           end.

(** [new Object(value)]: a live object at an address not in use, its
    counter at the default member initializer [0]. *)
Definition new_Object (value : Z) : M raw_ptr :=
  fun s => let a := fresh (dom (objs s)) in
           Some (Some a, upd_objs (insert a (mkObject 0 value)) s).




Definition log (c : call) : M unit :=
  fun s => Some (tt, upd_calls (cons c) s).

(** ** The counter functions (lines 15-35) *)

(** [++(ptr->m_ref_count)] *)
Definition intrusive_ptr_add_ref (ptr : raw_ptr) : M unit :=
  log (CallAddRef ptr) ;;
  o <- load ptr ;;
  store ptr (with_ref_count (wrap32 (m_ref_count o + 1)) o).

(** [if (--(ptr->m_ref_count) == 0) delete static_cast<const Derived*>(ptr);] *)
Definition intrusive_ptr_release (ptr : raw_ptr) : M unit :=
  log (CallRelease ptr) ;;
  o <- load ptr ;;
  let c := wrap32 (m_ref_count o - 1) in
  store ptr (with_ref_count c o) ;;
  if c =? 0 then delete_ ptr else ret tt.

(** [RefCountObject::ReferenceCount] *)
Definition ReferenceCount (ptr : raw_ptr) : M Z :=
  o <- load ptr ;; ret (m_ref_count o).

(** ** The pointer class (lines 91-337) *)

Module intrusive_ptr.

(** Reading and writing the member [m_pointer] of the instance at [this]. *)
Definition m_pointer (this : loc) : M raw_ptr :=
  fun s => match ptrs s !! this with
           | Some p => Some (p, s)
           | None => None
           end.

Definition assign_m_pointer (this : loc) (ptr : raw_ptr) : M unit :=
  fun s => match ptrs s !! this with
           | Some _ => Some (tt, upd_ptrs (insert this ptr) s)
           | None => None
           end.

(** A constructor's member initializer: the instance at [this] starts
    to exist with [m_pointer] holding [ptr]. *)
Definition init_m_pointer (this : loc) (ptr : raw_ptr) : M unit :=
  fun s => Some (tt, upd_ptrs (insert this ptr) s).

(** The instance at [this] stops existing. *)
Definition end_lifetime (this : loc) : M unit :=
  fun s => match ptrs s !! this with
           | Some _ => Some (tt, upd_ptrs (delete this) s)
           | None => None
           end.

Definition non_null (ptr : raw_ptr) : bool :=
  match ptr with Some _ => true | None => false end.

Definition raw_ptr_eqb (p q : raw_ptr) : bool :=
  match p, q with
  | Some a, Some b => Pos.eqb a b
  | None, None => true
  | _, _ => false
  end.

(** [T* get() const] *)
Definition get (this : loc) : M raw_ptr := m_pointer this.

(** private [void set(T* ptr, bool add_ref)] *)
Definition set (this : loc) (ptr : raw_ptr) (add_ref : bool) : M unit :=
  assign_m_pointer this ptr ;;
  if non_null ptr && add_ref
  then (p <- m_pointer this ;; intrusive_ptr_add_ref p)
  else ret tt.

(** [intrusive_ptr() : m_pointer(nullptr)] *)
Definition ctor_default (this : loc) : M unit :=
  init_m_pointer this None.

(** [intrusive_ptr(T* ptr, bool add_ref = true) { set(ptr, add_ref); }]
    The member has no initializer; [set] assigns it before anything
    reads it, so the placeholder below is never observed. *)
Definition ctor_raw (this : loc) (ptr : raw_ptr) (add_ref : bool) : M unit :=
  init_m_pointer this None ;;
  set this ptr add_ref.

(** [intrusive_ptr(const intrusive_ptr& other) { set(other.get(), true); }] *)
Definition ctor_copy (this other : loc) : M unit :=
  init_m_pointer this None ;;
  p <- get other ;;
  set this p true.

(** [T* detach()] *)
Definition detach (this : loc) : M raw_ptr :=
  ptr <- m_pointer this ;;
  (if non_null ptr then assign_m_pointer this None else ret tt) ;;
  ret ptr.

(** [intrusive_ptr(intrusive_ptr&& other) : m_pointer(other.detach())] *)
Definition ctor_move (this other : loc) : M unit :=
  p <- detach other ;;
  init_m_pointer this p.

(** [~intrusive_ptr()] *)
Definition dtor (this : loc) : M unit :=
  p <- m_pointer this ;;
  (if non_null p then intrusive_ptr_release p else ret tt) ;;
  end_lifetime this.

(** [operator=(const intrusive_ptr& other)] (lines 156-165) *)
Definition copy_assign (this other : loc) : M unit :=
  if Pos.eqb this other then ret tt
  else (p <- get other ;; assign_m_pointer this p).

(** [operator->] *)
Definition arrow (this : loc) : M raw_ptr := m_pointer this.

(** [operator*]: the pointee, read as a value. *)
Definition deref (this : loc) : M Object :=
  p <- m_pointer this ;; load p.

(** [explicit operator bool] *)
Definition to_bool (this : loc) : M bool :=
  p <- m_pointer this ;; ret (non_null p).

(** [operator==] *)
Definition eq (this other : loc) : M bool :=
  p <- m_pointer this ;;
  q <- get other ;;
  ret (raw_ptr_eqb p q).

(** [operator!=]: [not (this == other)] *)
Definition ne (this other : loc) : M bool :=
  b <- eq this other ;; ret (negb b).

(** [void reset(T* ptr, bool add_ref = true)] *)
Definition reset (this : loc) (ptr : raw_ptr) (add_ref : bool) : M unit :=
  old_ptr <- m_pointer this ;;
  set this ptr add_ref ;;
  if non_null old_ptr then intrusive_ptr_release old_ptr else ret tt.

(** [std::swap] at type [Object]: [Object tmp(std::move(a)); a =
    std::move(b); b = std::move(tmp);].  [Object] and its base declare a
    destructor and no copy or move operation, so each step is the
    implicit member-wise copy, which copies [m_ref_count] with [Value]. *)
Definition std_swap (a b : raw_ptr) : M unit :=
  tmp <- load a ;;
  from_b <- load b ;;
  store a from_b ;;
  store b tmp.

(** [void swap(intrusive_ptr& other) { std::swap( *m_pointer, *other.get()); }] *)
Definition swap (this other : loc) : M unit :=
  p <- m_pointer this ;;
  q <- get other ;;
  std_swap p q.

(** [uint32_t use_count() const] *)
Definition use_count (this : loc) : M Z :=
  p <- m_pointer this ;;
  if non_null p then ReferenceCount p else ret 0.

End intrusive_ptr.

(** [make_intrusive<Object>(value)], the result constructed at [this]. *)
Definition make_intrusive (this : loc) (value : Z) : M unit :=
  raw_ptr <- new_Object value ;;
  intrusive_ptr.ctor_raw this raw_ptr true.

(** ** Move assignment (lines 177-186)

    The body of [operator=(intrusive_ptr&& other)] is, after the identity
    test, the one statement [m_pointer = std::move(other);].  Its left
    operand is the member, of type [T*]; its right operand has the class
    type [intrusive_ptr<T>].  An assignment to a pointer converts its
    right operand implicitly to the pointer type, and a class-type operand
    converts through the non-explicit conversion functions of its class. *)

Inductive cxx_type : Type :=
| Raw_pointer      (* T* *)
| Intrusive_ptr    (* intrusive_ptr<T> *)
| Bool.            (* bool *)

Definition cxx_type_eqb (t u : cxx_type) : bool :=
  match t, u with
  | Raw_pointer, Raw_pointer => true
  | Intrusive_ptr, Intrusive_ptr => true
  | Bool, Bool => true
  | _, _ => false
  end.

Record conversion_function : Type := {
  conversion_target : cxx_type;
  conversion_explicit : bool
}.

(** The conversion functions the class declares: [explicit operator
    bool() const] (line 215), and no other. *)
Definition intrusive_ptr_conversion_functions : list conversion_function :=
  [ {| conversion_target := Bool; conversion_explicit := true |} ].

(** Implicit conversions among the three types: identity; the boolean
    conversion of a pointer; the converting constructor
    [intrusive_ptr(T* ptr, bool add_ref = true)] (line 110); and, from the
    class type, its non-explicit conversion functions. *)
Definition implicitly_convertible (from to : cxx_type) : bool :=
  cxx_type_eqb from to
  || match from, to with
     | Raw_pointer, Bool => true
     | Raw_pointer, Intrusive_ptr => true
     | Intrusive_ptr, _ =>
         existsb (fun f => cxx_type_eqb (conversion_target f) to
                           && negb (conversion_explicit f))
           intrusive_ptr_conversion_functions
     | _, _ => false
     end.

(** Whether [lhs = rhs] is well-formed for a left operand of a built-in
    type. *)
Definition assignment_well_formed (lhs rhs : cxx_type) : bool :=
  implicitly_convertible rhs lhs.

(** The types of the two operands of line 184. *)
Definition move_assign_lhs : cxx_type := Raw_pointer.
Definition move_assign_rhs : cxx_type := Intrusive_ptr.

(** ** States reached and states used as examples *)

(** The states the two counter functions lead to. *)
Definition after_add_ref (a : addr) (o : Object) (s : state) : state :=
  {| objs := <[a := with_ref_count (wrap32 (m_ref_count o + 1)) o]> (objs s);
     ptrs := ptrs s;
     calls := CallAddRef (Some a) :: calls s |}.

Definition after_release (a : addr) (o : Object) (s : state) : state :=
  {| objs := if wrap32 (m_ref_count o - 1) =? 0
             then delete a (objs s)
             else <[a := with_ref_count (wrap32 (m_ref_count o - 1)) o]> (objs s);
     ptrs := ptrs s;
     calls := CallRelease (Some a) :: calls s |}.

(** The state [set this ptr true] leads to when [ptr] is null or points
    to a live object (with a dangling [ptr] the call is undefined, and
    the state below is not used). *)
Definition acquired (this : loc) (ptr : raw_ptr) (s : state) : state :=
  match ptr with
  | Some b =>
      match objs s !! b with
      | Some ob => after_add_ref b ob (upd_ptrs (insert this ptr) s)
      | None => s
      end
  | None => upd_ptrs (insert this None) s
  end.

(** The store before anything is allocated, and the value a program
    returns from it. *)
Definition empty_state : state := {| objs := ∅; ptrs := ∅; calls := [] |}.

Definition result {A : Type} (m : M A) : option A :=
  match m empty_state with
  | Some (x, _) => Some x
  | None => None
  end.

(** A store with one object, of counter 1, and one pointer holding it. *)
Definition one_owner : state :=
  {| objs := {[ 1%positive := mkObject 1 60 ]};
     ptrs := {[ 1%positive := Some 1%positive ]};
     calls := [] |}.

(** Two objects with the same data, each with its own single owner. *)
Definition twins : state :=
  {| objs := {[ 1%positive := mkObject 1 40; 2%positive := mkObject 1 40 ]};
     ptrs := {[ 1%positive := Some 1%positive; 2%positive := Some 2%positive ]};
     calls := [] |}.

(** Pointer 1 is the only owner of object 1 and pointer 2 the only owner
    of object 2. *)
Definition two_owners : state :=
  {| objs := {[ 1%positive := mkObject 1 18; 2%positive := mkObject 1 81 ]};
     ptrs := {[ 1%positive := Some 1%positive; 2%positive := Some 2%positive ]};
     calls := [] |}.

(** Object 1 is shared by pointers 1 and 3, object 2 is owned by pointer 2
    alone. *)
Definition shared_and_single : state :=
  {| objs := {[ 1%positive := mkObject 2 18; 2%positive := mkObject 1 81 ]};
     ptrs := {[ 1%positive := Some 1%positive;
                2%positive := Some 2%positive;
                3%positive := Some 1%positive ]};
     calls := [] |}.

(** ** Invariants of a store *)

(** The number of live pointer instances whose [m_pointer] is [a]. *)
Definition owners (a : positive) (m : gmap positive (option positive)) : nat :=
  size (filter (fun slot : positive * option positive => slot.2 = Some a) m).

(** The share of an object [a] that a slot of content [x] stands for
    ([x] is [None] for a slot that does not exist). *)
Definition share (a : positive) (x : option (option positive)) : nat :=
  if decide (x = Some (Some a)) then 1%nat else 0%nat.

(** The bookkeeping the class is meant to keep: no pointer dangles, and
    every live object is held by at least one pointer and has for counter
    the number of pointers holding it (a number that fits the counter). *)
Record well_counted (s : state) : Prop := {
  wc_alive : forall this a,
    ptrs s !! this = Some (Some a) -> is_Some (objs s !! a);
  wc_count : forall a o,
    objs s !! a = Some o -> m_ref_count o = Z.of_nat (owners a (ptrs s));
  wc_owned : forall a o,
    objs s !! a = Some o -> 1 <= m_ref_count o < UINT32_MODULUS
}.

(** The effect of one logged call on the heap, and of a list of logged
    calls (most recent first, as the log keeps them). *)
Definition apply_call (c : call) (h : gmap positive Object)
    : gmap positive Object :=
  match c with
  | CallAddRef (Some a) =>
      match h !! a with
      | Some o => <[a := with_ref_count (wrap32 (m_ref_count o + 1)) o]> h
      | None => h
      end
  | CallRelease (Some a) =>
      match h !! a with
      | Some o =>
          if wrap32 (m_ref_count o - 1) =? 0 then delete a h
          else <[a := with_ref_count (wrap32 (m_ref_count o - 1)) o]> h
      | None => h
      end
  | _ => h
  end.

Definition replay (cs : list call) (h : gmap positive Object)
    : gmap positive Object :=
  foldr apply_call h cs.

(** A computation changes the objects only through the calls it logs. *)
Definition only_through_calls {A : Type} (m : M A) : Prop :=
  forall s x s',
    m s = Some (x, s') ->
    exists new, calls s' = new ++ calls s /\ objs s' = replay new (objs s).

(** Pointers 1 and 2 are each the only owner of an object of their own;
    pointer 3 is empty. *)
Definition two_and_empty : state :=
  {| objs := {[ 1%positive := mkObject 1 18; 2%positive := mkObject 1 81 ]};
     ptrs := {[ 1%positive := Some 1%positive;
                2%positive := Some 2%positive;
                3%positive := None ]};
     calls := [] |}.

(** * Properties *)

(** ** Running the primitives *)

Section Primitives.

Context {A B : Type}.

Lemma bind_run (m : M A) (k : A -> M B) (s s' : state) (x : A) :
  m s = Some (x, s') -> bind m k s = k x s'.
Proof. intros H. unfold bind. now rewrite H. Qed.

Lemma bind_ub (m : M A) (k : A -> M B) (s : state) :
  m s = None -> bind m k s = None.
Proof. intros H. unfold bind. now rewrite H. Qed.

End Primitives.

Lemma load_run (s : state) (a : addr) (o : Object) :
  objs s !! a = Some o -> load (Some a) s = Some (o, s).
Proof. intros H. unfold load. now rewrite H. Qed.

Lemma store_run (s : state) (a : addr) (o o' : Object) :
  objs s !! a = Some o ->
  store (Some a) o' s = Some (tt, upd_objs (insert a o') s).
Proof. intros H. unfold store. now rewrite H. Qed.

Lemma delete_run (s : state) (a : addr) (o : Object) :
  objs s !! a = Some o ->
  delete_ (Some a) s = Some (tt, upd_objs (delete a) s).
Proof. intros H. unfold delete_. now rewrite H. Qed.

Lemma log_run (c : call) (s : state) :
  log c s = Some (tt, upd_calls (cons c) s).
Proof. reflexivity. Qed.

Lemma m_pointer_run (s : state) (this : loc) (p : raw_ptr) :
  ptrs s !! this = Some p -> intrusive_ptr.m_pointer this s = Some (p, s).
Proof. intros H. unfold intrusive_ptr.m_pointer. now rewrite H. Qed.

Lemma assign_m_pointer_run (s : state) (this : loc) (p q : raw_ptr) :
  ptrs s !! this = Some p ->
  intrusive_ptr.assign_m_pointer this q s
  = Some (tt, upd_ptrs (insert this q) s).
Proof. intros H. unfold intrusive_ptr.assign_m_pointer. now rewrite H. Qed.

Lemma raw_ptr_eqb_decide (p q : raw_ptr) :
  intrusive_ptr.raw_ptr_eqb p q = bool_decide (p = q).
Proof.
  destruct p as [a|], q as [b|]; simpl; try easy.
  destruct (Pos.eqb_spec a b) as [->|Hne].
  - now rewrite bool_decide_eq_true_2.
  - rewrite bool_decide_eq_false_2; [easy | congruence].
Qed.

Lemma add_ref_run (s : state) (a : addr) (o : Object) :
  objs s !! a = Some o ->
  intrusive_ptr_add_ref (Some a) s = Some (tt, after_add_ref a o s).
Proof.
  intros H. unfold intrusive_ptr_add_ref.
  rewrite (bind_run _ _ _ _ _ (log_run _ s)).
  rewrite (bind_run _ _ _ _ _ (load_run (upd_calls _ s) a o H)).
  now rewrite (store_run (upd_calls _ s) a o _ H).
Qed.

Lemma release_run (s : state) (a : addr) (o : Object) :
  objs s !! a = Some o ->
  intrusive_ptr_release (Some a) s = Some (tt, after_release a o s).
Proof.
  intros H. unfold intrusive_ptr_release.
  rewrite (bind_run _ _ _ _ _ (log_run _ s)).
  rewrite (bind_run _ _ _ _ _ (load_run (upd_calls _ s) a o H)).
  cbv zeta.
  rewrite (bind_run _ _ _ _ _ (store_run (upd_calls _ s) a o _ H)).
  unfold after_release.
  destruct (wrap32 (m_ref_count o - 1) =? 0) eqn:E.
  - erewrite delete_run by (simpl; apply lookup_insert_eq).
    unfold upd_objs; simpl. now rewrite delete_insert_eq.
  - reflexivity.
Qed.

Lemma wrap32_succ (c : Z) :
  0 <= c < UINT32_MODULUS - 1 -> wrap32 (c + 1) = c + 1.
Proof. intros H. unfold wrap32. apply Z.mod_small. lia. Qed.



Lemma new_Object_run (s : state) (value : Z) :
  let a := fresh (dom (objs s)) in
  new_Object value s
  = Some (Some a, upd_objs (insert a (mkObject 0 value)) s)
  /\ objs s !! a = None.
Proof.
  cbv zeta. split; [reflexivity|].
  apply not_elem_of_dom. apply is_fresh.
Qed.

Lemma after_add_ref_lookup (s : state) (a a' : addr) (o : Object) :
  objs (after_add_ref a o s) !! a'
  = if decide (a = a')
    then Some (with_ref_count (wrap32 (m_ref_count o + 1)) o)
    else objs s !! a'.
Proof. unfold after_add_ref; simpl. apply lookup_insert. Qed.

Lemma after_release_lookup (s : state) (a a' : addr) (o : Object) :
  objs (after_release a o s) !! a'
  = if decide (a = a')
    then (if wrap32 (m_ref_count o - 1) =? 0 then None
          else Some (with_ref_count (wrap32 (m_ref_count o - 1)) o))
    else objs s !! a'.
Proof.
  unfold after_release; simpl.
  destruct (wrap32 (m_ref_count o - 1) =? 0).
  - apply lookup_delete.
  - apply lookup_insert.
Qed.

Lemma after_release_live (s : state) (a : addr) (o : Object) :
  wrap32 (m_ref_count o - 1) <> 0 ->
  objs (after_release a o s) !! a
  = Some (with_ref_count (wrap32 (m_ref_count o - 1)) o).
Proof.
  intros Hnz. rewrite after_release_lookup, decide_True by reflexivity.
  destruct (Z.eqb_spec (wrap32 (m_ref_count o - 1)) 0); congruence.
Qed.

(** ** The counter *)







(** ** Running the member functions *)

Section Members.

Variables (s : state) (this : loc) (old : raw_ptr).
Hypothesis Hthis : ptrs s !! this = Some old.

Lemma get_run : intrusive_ptr.get this s = Some (old, s).
Proof. now apply m_pointer_run. Qed.

Lemma set_null_run (add_ref : bool) :
  intrusive_ptr.set this None add_ref s
  = Some (tt, upd_ptrs (insert this None) s).
Proof.
  unfold intrusive_ptr.set.
  now rewrite (bind_run _ _ _ _ _ (assign_m_pointer_run _ _ _ _ Hthis)).
Qed.

Lemma set_adopt_run (ptr : raw_ptr) :
  intrusive_ptr.set this ptr false s
  = Some (tt, upd_ptrs (insert this ptr) s).
Proof.
  unfold intrusive_ptr.set.
  rewrite (bind_run _ _ _ _ _ (assign_m_pointer_run _ _ _ _ Hthis)).
  now rewrite andb_false_r.
Qed.

Lemma set_add_ref_run (b : addr) (ob : Object) :
  objs s !! b = Some ob ->
  intrusive_ptr.set this (Some b) true s
  = Some (tt, after_add_ref b ob (upd_ptrs (insert this (Some b)) s)).
Proof.
  intros Hb. unfold intrusive_ptr.set.
  rewrite (bind_run _ _ _ _ _ (assign_m_pointer_run _ _ _ _ Hthis)).
  cbn [intrusive_ptr.non_null andb].
  erewrite bind_run by (apply m_pointer_run; simpl; apply lookup_insert_eq).
  now apply add_ref_run.
Qed.

Lemma detach_run :
  intrusive_ptr.detach this s
  = Some (old, upd_ptrs (insert this None) s).
Proof.
  unfold intrusive_ptr.detach.
  rewrite (bind_run _ _ _ _ _ (m_pointer_run _ _ _ Hthis)).
  destruct old as [a|]; cbn [intrusive_ptr.non_null].
  - now rewrite (bind_run _ _ _ _ _ (assign_m_pointer_run _ _ _ _ Hthis)).
  - unfold bind, ret. unfold upd_ptrs. destruct s as [ob pt cl]; simpl in *.
    now rewrite insert_id.
Qed.

Lemma use_count_null_run :
  old = None -> intrusive_ptr.use_count this s = Some (0, s).
Proof.
  intros ->. unfold intrusive_ptr.use_count.
  now rewrite (bind_run _ _ _ _ _ (m_pointer_run _ _ _ Hthis)).
Qed.

Lemma use_count_run (a : addr) (o : Object) :
  old = Some a -> objs s !! a = Some o ->
  intrusive_ptr.use_count this s = Some (m_ref_count o, s).
Proof.
  intros -> Ha. unfold intrusive_ptr.use_count.
  rewrite (bind_run _ _ _ _ _ (m_pointer_run _ _ _ Hthis)).
  cbn [intrusive_ptr.non_null]. unfold ReferenceCount.
  now rewrite (bind_run _ _ _ _ _ (load_run _ _ _ Ha)).
Qed.

End Members.

(** ** Detaching, moving and copying *)

(** C6: [detach] on a pointer that holds an object returns the raw
    pointer it held and leaves the pointer empty; the object, its counter
    included, is as before, neither counter function is called, and no
    other pointer changes. *)
Theorem detach_keeps_counter
    (s : state) (this : loc) (a : addr) (o : Object) :
  ptrs s !! this = Some (Some a) ->
  objs s !! a = Some o ->
  exists s',
    intrusive_ptr.detach this s = Some (Some a, s')
    /\ intrusive_ptr.get this s' = Some (None, s')
    /\ ReferenceCount (Some a) s' = Some (m_ref_count o, s')
    /\ objs s' = objs s
    /\ calls s' = calls s
    /\ (forall q, q <> this -> ptrs s' !! q = ptrs s !! q).
Proof.
  intros Hthis Ha.
  exists (upd_ptrs (insert this None) s).
  split; [now apply detach_run|].
  split; [apply m_pointer_run; simpl; apply lookup_insert_eq|].
  split.
  { unfold ReferenceCount.
    now rewrite (bind_run _ _ _ _ _ (load_run (upd_ptrs _ s) _ _ Ha)). }
  repeat split. intros q Hq. simpl. now apply lookup_insert_ne.
Qed.

Lemma detach_keeps_counter_witness :
  ptrs one_owner !! 1%positive = Some (Some 1%positive)
  /\ objs one_owner !! 1%positive = Some (mkObject 1 60)
  /\ exists s',
       intrusive_ptr.detach 1 one_owner = Some (Some 1%positive, s')
       /\ intrusive_ptr.get 1 s' = Some (None, s')
       /\ ReferenceCount (Some 1%positive) s' = Some (1, s').
Proof.
  assert (Hp : ptrs one_owner !! 1%positive = Some (Some 1%positive))
    by reflexivity.
  assert (Ho : objs one_owner !! 1%positive = Some (mkObject 1 60))
    by reflexivity.
  split; [exact Hp|]. split; [exact Ho|].
  destruct (detach_keeps_counter one_owner 1 1 (mkObject 1 60) Hp Ho)
    as (s' & Hd & Hg & Hc & _).
  exists s'. split; [exact Hd|]. split; [exact Hg | exact Hc].
Defined.

Lemma ctor_move_run (s : state) (p q : loc) (v : raw_ptr) :
  ptrs s !! p = Some v ->
  intrusive_ptr.ctor_move q p s
  = Some (tt, upd_ptrs (insert q v) (upd_ptrs (insert p None) s)).
Proof.
  intros Hp. unfold intrusive_ptr.ctor_move.
  now rewrite (bind_run _ _ _ _ _ (detach_run _ _ _ Hp)).
Qed.

(** C7: move construction of [q] from a pointer [p] that holds an object
    leaves [q] holding what [p] held and [p] empty; the object and its
    counter are as before and neither counter function is called, so the
    count seen through [q] is the one [p] saw. *)
Theorem move_construct_transfers
    (s : state) (p q : loc) (a : addr) (o : Object) :
  p <> q ->
  ptrs s !! p = Some (Some a) ->
  objs s !! a = Some o ->
  exists s',
    intrusive_ptr.ctor_move q p s = Some (tt, s')
    /\ intrusive_ptr.get q s' = Some (Some a, s')
    /\ intrusive_ptr.get p s' = Some (None, s')
    /\ intrusive_ptr.use_count p s = Some (m_ref_count o, s)
    /\ intrusive_ptr.use_count q s' = Some (m_ref_count o, s')
    /\ objs s' = objs s
    /\ calls s' = calls s.
Proof.
  intros Hpq Hp Ha.
  exists (upd_ptrs (insert q (Some a)) (upd_ptrs (insert p None) s)).
  assert (Hq' : ptrs (upd_ptrs (insert q (Some a))
                        (upd_ptrs (insert p None) s)) !! q = Some (Some a))
    by (simpl; apply lookup_insert_eq).
  split; [now apply ctor_move_run|].
  split; [now apply m_pointer_run|].
  split.
  { apply m_pointer_run; simpl.
    rewrite lookup_insert_ne by congruence. apply lookup_insert_eq. }
  split; [now apply (use_count_run s p (Some a) Hp a o)|].
  split; [now apply (use_count_run _ q (Some a) Hq' a o)|].
  split; reflexivity.
Qed.

Lemma move_construct_transfers_witness :
  exists s',
    intrusive_ptr.ctor_move 2 1 one_owner = Some (tt, s')
    /\ intrusive_ptr.get 2 s' = Some (Some 1%positive, s')
    /\ intrusive_ptr.get 1 s' = Some (None, s')
    /\ intrusive_ptr.use_count 2 s' = Some (1, s').
Proof.
  destruct (move_construct_transfers one_owner 1 2 1 (mkObject 1 60))
    as (s' & Hm & Hq & Hp & _ & Hc & _);
    [discriminate | reflexivity | reflexivity |].
  exists s'. repeat split; assumption.
Defined.

Lemma ctor_copy_run (s : state) (p q : loc) (a : addr) (o : Object) :
  p <> q ->
  ptrs s !! p = Some (Some a) ->
  objs s !! a = Some o ->
  intrusive_ptr.ctor_copy q p s
  = Some (tt, after_add_ref a o (upd_ptrs (insert q (Some a)) s)).
Proof.
  intros Hpq Hp Ha. unfold intrusive_ptr.ctor_copy.
  erewrite bind_run by reflexivity.
  erewrite bind_run
    by (apply get_run; simpl; rewrite lookup_insert_ne by congruence;
        exact Hp).
  rewrite (set_add_ref_run _ q None) with (ob := o).
  - unfold upd_ptrs; simpl. now rewrite insert_insert_eq.
  - simpl. apply lookup_insert_eq.
  - exact Ha.
Qed.

(** C8: copy construction of [q] from a pointer [p] that holds an object
    whose count is [n] makes one call of [intrusive_ptr_add_ref]; after it
    [p] and [q] hold the same raw pointer and both see the count [n + 1]
    ([uint32_t] addition: exactly [n + 1] unless [n] is the largest
    value). *)
Theorem copy_construct_shares
    (s : state) (p q : loc) (a : addr) (o : Object) :
  p <> q ->
  ptrs s !! p = Some (Some a) ->
  objs s !! a = Some o ->
  exists s',
    intrusive_ptr.ctor_copy q p s = Some (tt, s')
    /\ intrusive_ptr.use_count p s = Some (m_ref_count o, s)
    /\ intrusive_ptr.use_count p s' = Some (wrap32 (m_ref_count o + 1), s')
    /\ intrusive_ptr.use_count q s' = Some (wrap32 (m_ref_count o + 1), s')
    /\ (0 <= m_ref_count o < UINT32_MODULUS - 1 ->
        wrap32 (m_ref_count o + 1) = m_ref_count o + 1)
    /\ intrusive_ptr.get p s' = Some (Some a, s')
    /\ intrusive_ptr.get q s' = Some (Some a, s')
    /\ calls s' = CallAddRef (Some a) :: calls s.
Proof.
  intros Hpq Hp Ha.
  set (s' := after_add_ref a o (upd_ptrs (insert q (Some a)) s)).
  assert (Hp' : ptrs s' !! p = Some (Some a))
    by (simpl; now rewrite lookup_insert_ne by congruence).
  assert (Hq' : ptrs s' !! q = Some (Some a))
    by (simpl; apply lookup_insert_eq).
  assert (Ha' : objs s' !! a
                = Some (with_ref_count (wrap32 (m_ref_count o + 1)) o))
    by (simpl; apply lookup_insert_eq).
  exists s'.
  split; [now apply ctor_copy_run|].
  split; [now apply (use_count_run s p (Some a) Hp a o)|].
  split; [exact (use_count_run s' p (Some a) Hp' a _ eq_refl Ha')|].
  split; [exact (use_count_run s' q (Some a) Hq' a _ eq_refl Ha')|].
  split; [apply wrap32_succ|].
  split; [now apply m_pointer_run|].
  split; [now apply m_pointer_run|reflexivity].
Qed.

Lemma copy_construct_shares_witness :
  exists s',
    intrusive_ptr.ctor_copy 2 1 one_owner = Some (tt, s')
    /\ intrusive_ptr.use_count 1 one_owner = Some (1, one_owner)
    /\ intrusive_ptr.use_count 1 s' = Some (2, s')
    /\ intrusive_ptr.use_count 2 s' = Some (2, s').
Proof.
  destruct (copy_construct_shares one_owner 1 2 1 (mkObject 1 60))
    as (s' & Hc & Hn & Hp & Hq & _);
    [discriminate | reflexivity | reflexivity |].
  exists s'. repeat split; assumption.
Defined.

(** ** Comparison *)

Lemma eq_run (s : state) (p q : loc) (vp vq : raw_ptr) :
  ptrs s !! p = Some vp ->
  ptrs s !! q = Some vq ->
  intrusive_ptr.eq p q s = Some (bool_decide (vp = vq), s).
Proof.
  intros Hp Hq. unfold intrusive_ptr.eq.
  rewrite (bind_run _ _ _ _ _ (m_pointer_run _ _ _ Hp)).
  rewrite (bind_run _ _ _ _ _ (get_run _ _ _ Hq)).
  unfold ret. now rewrite raw_ptr_eqb_decide.
Qed.

Lemma ne_run (s : state) (p q : loc) (vp vq : raw_ptr) :
  ptrs s !! p = Some vp ->
  ptrs s !! q = Some vq ->
  intrusive_ptr.ne p q s = Some (negb (bool_decide (vp = vq)), s).
Proof.
  intros Hp Hq. unfold intrusive_ptr.ne.
  now rewrite (bind_run _ _ _ _ _ (eq_run _ _ _ _ _ Hp Hq)).
Qed.

(** Copy construction from any source whose pointee, if it has one, is
    alive: the copy holds what the source holds, and the source keeps it. *)
Lemma ctor_copy_slots (s : state) (p q : loc) (vp : raw_ptr) :
  p <> q ->
  ptrs s !! p = Some vp ->
  (forall a, vp = Some a -> is_Some (objs s !! a)) ->
  exists s',
    intrusive_ptr.ctor_copy q p s = Some (tt, s')
    /\ ptrs s' = <[q := vp]> (ptrs s)
    /\ (forall a, is_Some (objs s !! a) -> is_Some (objs s' !! a)).
Proof.
  intros Hpq Hp Hlive. destruct vp as [a|].
  - destruct (Hlive a eq_refl) as [o Ha].
    eexists. split; [now apply (ctor_copy_run s p q a o)|].
    split; [reflexivity|].
    intros a' Ha'. rewrite after_add_ref_lookup.
    case_decide; [eauto | exact Ha'].
  - exists (upd_ptrs (insert q None) s). split.
    + unfold intrusive_ptr.ctor_copy.
      erewrite bind_run by reflexivity.
      erewrite bind_run
        by (apply get_run; simpl; rewrite lookup_insert_ne by congruence;
            exact Hp).
      rewrite (set_null_run _ q None) by (simpl; apply lookup_insert_eq).
      unfold upd_ptrs; simpl. now rewrite insert_insert_eq.
    + split; [reflexivity | auto].
Qed.

(** C9: [operator==] answers whether the two pointers hold the same raw
    pointer, and [operator!=] answers the opposite; two copies of one
    source compare equal, and pointers to two distinct objects compare
    unequal even when the two objects hold the same data. *)
Theorem equality_is_identity
    (s : state) (p q : loc) (vp vq : raw_ptr) :
  ptrs s !! p = Some vp ->
  ptrs s !! q = Some vq ->
  (exists b,
      intrusive_ptr.eq p q s = Some (b, s)
      /\ (b = true <-> vp = vq)
      /\ intrusive_ptr.ne p q s = Some (negb b, s))
  /\ (forall c1 c2,
        c1 <> p -> c2 <> p -> c1 <> c2 ->
        (forall a, vp = Some a -> is_Some (objs s !! a)) ->
        exists s',
          (intrusive_ptr.ctor_copy c1 p ;; intrusive_ptr.ctor_copy c2 p) s
          = Some (tt, s')
          /\ intrusive_ptr.eq c1 c2 s' = Some (true, s')
          /\ intrusive_ptr.ne c1 c2 s' = Some (false, s'))
  /\ (forall a b o,
        vp = Some a -> vq = Some b -> a <> b ->
        objs s !! a = Some o -> objs s !! b = Some o ->
        intrusive_ptr.eq p q s = Some (false, s)
        /\ intrusive_ptr.ne p q s = Some (true, s)).
Proof.
  intros Hp Hq. split; [|split].
  - exists (bool_decide (vp = vq)).
    split; [now apply eq_run|].
    split; [apply bool_decide_eq_true | now apply ne_run].
  - intros c1 c2 H1 H2 H12 Hlive.
    destruct (ctor_copy_slots s p c1 vp) as (s1 & Hc1 & Hs1 & Hl1);
      [congruence | exact Hp | exact Hlive |].
    assert (Hp1 : ptrs s1 !! p = Some vp)
      by (rewrite Hs1; now rewrite lookup_insert_ne by congruence).
    destruct (ctor_copy_slots s1 p c2 vp) as (s2 & Hc2 & Hs2 & _);
      [congruence | exact Hp1 | |].
    { intros a Ha. apply Hl1. now apply Hlive. }
    exists s2.
    assert (Hv1 : ptrs s2 !! c1 = Some vp).
    { rewrite Hs2, Hs1. rewrite lookup_insert_ne by congruence.
      apply lookup_insert_eq. }
    assert (Hv2 : ptrs s2 !! c2 = Some vp).
    { rewrite Hs2. apply lookup_insert_eq. }
    split; [now rewrite (bind_run _ _ _ _ _ Hc1)|].
    rewrite (eq_run _ _ _ _ _ Hv1 Hv2), (ne_run _ _ _ _ _ Hv1 Hv2).
    now rewrite bool_decide_eq_true_2.
  - intros a b o -> -> Hab _ _.
    rewrite (eq_run _ _ _ _ _ Hp Hq), (ne_run _ _ _ _ _ Hp Hq).
    rewrite bool_decide_eq_false_2; [easy | congruence].
Qed.

Lemma equality_is_identity_witness :
  (intrusive_ptr.eq 1 2 twins = Some (false, twins)
   /\ intrusive_ptr.ne 1 2 twins = Some (true, twins))
  /\ exists s',
       (intrusive_ptr.ctor_copy 3 1 ;; intrusive_ptr.ctor_copy 4 1) twins
       = Some (tt, s')
       /\ intrusive_ptr.eq 3 4 s' = Some (true, s')
       /\ intrusive_ptr.ne 3 4 s' = Some (false, s').
Proof.
  destruct (equality_is_identity twins 1 2 (Some 1%positive)
              (Some 2%positive) eq_refl eq_refl)
    as (_ & Hcopies & Hdistinct).
  split.
  - apply (Hdistinct 1%positive 2%positive (mkObject 1 40));
      [reflexivity | reflexivity | discriminate | reflexivity | reflexivity].
  - apply (Hcopies 3%positive 4%positive);
      [discriminate | discriminate | discriminate |].
    intros a [= <-]. now exists (mkObject 1 40).
Defined.

(** ** Null pointers and [reset] *)

Lemma ctor_raw_null_run (s : state) (this : loc) (add_ref : bool) :
  intrusive_ptr.ctor_raw this None add_ref s
  = Some (tt, upd_ptrs (insert this None) s).
Proof.
  unfold intrusive_ptr.ctor_raw.
  erewrite bind_run by reflexivity.
  rewrite (set_null_run _ this None) by (simpl; apply lookup_insert_eq).
  unfold upd_ptrs; simpl. now rewrite insert_insert_eq.
Qed.

(** [reset] is the acquisition by [set] followed by the release of what
    the pointer held. *)
Lemma reset_run (s s1 : state) (this : loc) (a : addr) (o1 : Object)
    (ptr : raw_ptr) (add_ref : bool) :
  ptrs s !! this = Some (Some a) ->
  intrusive_ptr.set this ptr add_ref s = Some (tt, s1) ->
  objs s1 !! a = Some o1 ->
  intrusive_ptr.reset this ptr add_ref s = Some (tt, after_release a o1 s1).
Proof.
  intros Hthis Hset Ha. unfold intrusive_ptr.reset.
  rewrite (bind_run _ _ _ _ _ (m_pointer_run _ _ _ Hthis)).
  rewrite (bind_run _ _ _ _ _ Hset).
  cbn [intrusive_ptr.non_null]. now apply release_run.
Qed.

Lemma reset_empty_null_run (s : state) (this : loc) (add_ref : bool) :
  ptrs s !! this = Some None ->
  intrusive_ptr.reset this None add_ref s = Some (tt, s).
Proof.
  intros Hthis. unfold intrusive_ptr.reset.
  rewrite (bind_run _ _ _ _ _ (m_pointer_run _ _ _ Hthis)).
  rewrite (bind_run _ _ _ _ _ (set_null_run _ _ _ Hthis add_ref)).
  cbn [intrusive_ptr.non_null]. unfold ret, upd_ptrs.
  destruct s as [ob pt cl]; simpl in *. now rewrite insert_id.
Qed.

(** C10: construction from a null raw pointer, with either value of the
    flag, gives an empty pointer ([get] is null, [use_count] is 0) without
    any call of a counter function and without touching any object;
    [reset] to null makes one call, the release of the object held before,
    and leaves the pointer empty (and does nothing at all on a pointer
    that was empty already). *)
Theorem null_is_never_counted (s : state) (this : loc) (add_ref : bool) :
  (exists s',
      intrusive_ptr.ctor_raw this None add_ref s = Some (tt, s')
      /\ intrusive_ptr.get this s' = Some (None, s')
      /\ intrusive_ptr.use_count this s' = Some (0, s')
      /\ calls s' = calls s
      /\ objs s' = objs s)
  /\ (forall a o,
        ptrs s !! this = Some (Some a) ->
        objs s !! a = Some o ->
        exists s',
          intrusive_ptr.reset this None add_ref s = Some (tt, s')
          /\ intrusive_ptr.get this s' = Some (None, s')
          /\ intrusive_ptr.use_count this s' = Some (0, s')
          /\ calls s' = CallRelease (Some a) :: calls s
          /\ objs s' = objs (after_release a o s))
  /\ (ptrs s !! this = Some None ->
      intrusive_ptr.reset this None add_ref s = Some (tt, s)).
Proof.
  split; [|split].
  - exists (upd_ptrs (insert this None) s).
    assert (H : ptrs (upd_ptrs (insert this None) s) !! this = Some None)
      by (simpl; apply lookup_insert_eq).
    split; [apply ctor_raw_null_run|].
    split; [now apply m_pointer_run|].
    split; [now apply (use_count_null_run _ this None)|].
    split; reflexivity.
  - intros a o Hthis Ha.
    exists (after_release a o (upd_ptrs (insert this None) s)).
    assert (H : ptrs (after_release a o (upd_ptrs (insert this None) s))
                !! this = Some None)
      by (simpl; apply lookup_insert_eq).
    split.
    { apply reset_run; [exact Hthis | | exact Ha].
      now apply (set_null_run s this (Some a)). }
    split; [now apply m_pointer_run|].
    split; [now apply (use_count_null_run _ this None)|].
    split; reflexivity.
  - apply reset_empty_null_run.
Qed.

Lemma null_is_never_counted_witness :
  exists s',
    intrusive_ptr.reset 1 None true one_owner = Some (tt, s')
    /\ intrusive_ptr.get 1 s' = Some (None, s')
    /\ calls s' = [CallRelease (Some 1%positive)]
    /\ objs s' !! 1%positive = None.
Proof.
  destruct (proj1 (proj2 (null_is_never_counted one_owner 1 true))
              1%positive (mkObject 1 60) eq_refl eq_refl)
    as (s' & Hr & Hg & _ & Hc & Ho).
  exists s'. split; [exact Hr|]. split; [exact Hg|]. split; [exact Hc|].
  now rewrite Ho.
Defined.

Lemma wrap32_succ_pred (c : Z) :
  0 <= c < UINT32_MODULUS -> wrap32 (wrap32 (c + 1) - 1) = c.
Proof.
  intros H. unfold wrap32. rewrite Zminus_mod_idemp_l.
  replace (c + 1 - 1) with c by lia. now apply Z.mod_small.
Qed.

Lemma set_acquired (s : state) (this : loc) (old ptr : raw_ptr) :
  ptrs s !! this = Some old ->
  (forall b, ptr = Some b -> is_Some (objs s !! b)) ->
  intrusive_ptr.set this ptr true s = Some (tt, acquired this ptr s).
Proof.
  intros Hthis Hlive. unfold acquired. destruct ptr as [b|].
  - destruct (Hlive b eq_refl) as [ob Hb]. rewrite Hb.
    now apply (set_add_ref_run s this old).
  - now apply (set_null_run s this old).
Qed.

(** C4: [reset this B] (default flag) on a pointer holding [A] first
    acquires [B] (stores it and, if it is not null, adds one to its
    counter) and then releases [A]: the counter [A] has at that moment
    goes down by exactly one and [A] is destroyed if and only if that
    gives 0.  Afterwards [get] is [B]; for [B] another object than [A],
    [use_count] is [B]'s former counter plus one and [A]'s counter is its
    former one minus one; for [B] the object [A] itself, counted at least
    once, the object is not destroyed and its counter is what it was. *)
Theorem reset_acquires_then_releases
    (s : state) (this : loc) (a : addr) (oa : Object) (B : raw_ptr) :
  ptrs s !! this = Some (Some a) ->
  objs s !! a = Some oa ->
  (forall b, B = Some b -> is_Some (objs s !! b)) ->
  exists s1 oa1 s',
    intrusive_ptr.set this B true s = Some (tt, s1)
    /\ objs s1 !! a = Some oa1
    /\ intrusive_ptr_release (Some a) s1 = Some (tt, s')
    /\ intrusive_ptr.reset this B true s = Some (tt, s')
    /\ intrusive_ptr.get this s' = Some (B, s')
    /\ calls s'
       = CallRelease (Some a)
           :: (if intrusive_ptr.non_null B then [CallAddRef B] else [])
           ++ calls s
    /\ (forall b ob, B = Some b -> objs s !! b = Some ob ->
        ReferenceCount B s1 = Some (wrap32 (m_ref_count ob + 1), s1))
    /\ objs s' !! a
       = (if wrap32 (m_ref_count oa1 - 1) =? 0 then None
          else Some (with_ref_count (wrap32 (m_ref_count oa1 - 1)) oa1))
    /\ (B <> Some a -> oa1 = oa)
    /\ (forall b ob, B = Some b -> b <> a -> objs s !! b = Some ob ->
        intrusive_ptr.use_count this s'
        = Some (wrap32 (m_ref_count ob + 1), s'))
    /\ (B = None -> intrusive_ptr.use_count this s' = Some (0, s'))
    /\ (B = Some a -> 1 <= m_ref_count oa < UINT32_MODULUS ->
        objs s' !! a = Some oa
        /\ intrusive_ptr.use_count this s' = Some (m_ref_count oa, s')).
Proof.
  intros Hthis Ha Hlive.
  pose proof (set_acquired s this (Some a) B Hthis Hlive) as Hset.
  assert (Hslot : forall o1, ptrs (after_release a o1 (acquired this B s))
                             !! this = Some B).
  { intros o1. unfold acquired. destruct B as [b|].
    - destruct (Hlive b eq_refl) as [ob Hb]. rewrite Hb. simpl.
      apply lookup_insert_eq.
    - simpl. apply lookup_insert_eq. }
  destruct B as [b|].
  - destruct (Hlive b eq_refl) as [ob Hb].
    destruct (decide (b = a)) as [->|Hba].
    + (* B is the object held *)
      assert (ob = oa) as -> by congruence.
      set (oa1 := with_ref_count (wrap32 (m_ref_count oa + 1)) oa).
      assert (Ha1 : objs (acquired this (Some a) s) !! a = Some oa1).
      { unfold acquired. rewrite Ha. simpl. apply lookup_insert_eq. }
      exists (acquired this (Some a) s), oa1,
        (after_release a oa1 (acquired this (Some a) s)).
      split; [exact Hset|]. split; [exact Ha1|].
      split; [now apply release_run|].
      split; [now apply (reset_run s _ this a oa1)|].
      split; [apply m_pointer_run, Hslot|].
      split; [unfold acquired; now rewrite Ha|].
      split.
      { intros b ob' [= <-] Hb'. assert (ob' = oa) as -> by congruence.
        unfold ReferenceCount.
        now rewrite (bind_run _ _ _ _ _ (load_run _ _ _ Ha1)). }
      split; [rewrite after_release_lookup; now rewrite decide_True|].
      split; [congruence|].
      split; [intros b ob' [= <-]; congruence|].
      split; [discriminate|].
      intros _ Hrange.
      assert (Hc : wrap32 (m_ref_count oa1 - 1) = m_ref_count oa)
        by (apply wrap32_succ_pred; lia).
      assert (Hfin : objs (after_release a oa1 (acquired this (Some a) s))
                     !! a = Some oa).
      { rewrite after_release_live by (rewrite Hc; lia).
        rewrite Hc. unfold oa1, with_ref_count; simpl. now destruct oa. }
      split; [exact Hfin|].
      now apply (use_count_run _ this (Some a) (Hslot oa1) a oa).
    + (* B is another object *)
      assert (Ha1 : objs (acquired this (Some b) s) !! a = Some oa).
      { unfold acquired. rewrite Hb. rewrite after_add_ref_lookup.
        now rewrite decide_False. }
      assert (Hb1 : objs (acquired this (Some b) s) !! b
                    = Some (with_ref_count (wrap32 (m_ref_count ob + 1)) ob)).
      { unfold acquired. rewrite Hb. simpl. apply lookup_insert_eq. }
      exists (acquired this (Some b) s), oa,
        (after_release a oa (acquired this (Some b) s)).
      split; [exact Hset|]. split; [exact Ha1|].
      split; [now apply release_run|].
      split; [now apply (reset_run s _ this a oa)|].
      split; [apply m_pointer_run, Hslot|].
      split; [unfold acquired; now rewrite Hb|].
      split.
      { intros b' ob' [= <-] Hb'. assert (ob' = ob) as -> by congruence.
        unfold ReferenceCount.
        now rewrite (bind_run _ _ _ _ _ (load_run _ _ _ Hb1)). }
      split; [rewrite after_release_lookup; now rewrite decide_True|].
      split; [reflexivity|].
      split.
      { intros b' ob' [= <-] _ Hb'. assert (ob' = ob) as -> by congruence.
        refine (use_count_run _ this (Some b) (Hslot oa) b
                  (with_ref_count (wrap32 (m_ref_count ob + 1)) ob)
                  eq_refl _).
        rewrite after_release_lookup. rewrite decide_False by congruence.
        exact Hb1. }
      split; [discriminate | congruence].
  - (* B is null *)
    assert (Ha1 : objs (acquired this None s) !! a = Some oa) by exact Ha.
    exists (acquired this None s), oa,
      (after_release a oa (acquired this None s)).
    split; [exact Hset|]. split; [exact Ha1|].
    split; [now apply release_run|].
    split; [now apply (reset_run s _ this a oa)|].
    split; [apply m_pointer_run, Hslot|].
    split; [reflexivity|].
    split; [discriminate|].
    split; [rewrite after_release_lookup; now rewrite decide_True|].
    split; [reflexivity|].
    split; [discriminate|].
    split; [|discriminate].
    intros _. now apply (use_count_null_run _ this None (Hslot oa)).
Qed.

Lemma reset_acquires_then_releases_witness :
  exists s',
    intrusive_ptr.reset 1 (Some 1%positive) true one_owner = Some (tt, s')
    /\ intrusive_ptr.get 1 s' = Some (Some 1%positive, s')
    /\ objs s' !! 1%positive = Some (mkObject 1 60)
    /\ intrusive_ptr.use_count 1 s' = Some (1, s').
Proof.
  destruct (reset_acquires_then_releases one_owner 1 1 (mkObject 1 60)
              (Some 1%positive) eq_refl eq_refl)
    as (s1 & oa1 & s' & _ & _ & _ & Hr & Hg & _ & _ & _ & _ & _ & _ & Hsame).
  - intros b [= <-]. now exists (mkObject 1 60).
  - destruct (Hsame eq_refl) as [Ho Hu]; [unfold UINT32_MODULUS; simpl; lia|].
    exists s'. repeat split; assumption.
Defined.

(** ** Copy assignment (lines 156-165) *)

Lemma copy_assign_self_run (s : state) (this : loc) :
  intrusive_ptr.copy_assign this this s = Some (tt, s).
Proof. unfold intrusive_ptr.copy_assign. now rewrite Pos.eqb_refl. Qed.

(** Between two distinct pointers the assignment writes the destination's
    member and nothing else: the objects and the log of counter calls are
    those of the state before. *)
Lemma copy_assign_run (s : state) (this other : loc) (old v : raw_ptr) :
  this <> other ->
  ptrs s !! this = Some old ->
  ptrs s !! other = Some v ->
  intrusive_ptr.copy_assign this other s
  = Some (tt, upd_ptrs (insert this v) s).
Proof.
  intros Hne Hthis Hother. unfold intrusive_ptr.copy_assign.
  destruct (Pos.eqb_spec this other) as [->|_]; [congruence|].
  rewrite (bind_run _ _ _ _ _ (get_run _ _ _ Hother)).
  now apply (assign_m_pointer_run s this old).
Qed.

(** C1, on the code: after [p = q] with [p] the only owner of one object
    and [q] the only owner of another, [p] holds [q]'s raw pointer, but no
    counter function was called: the object [q] shares with [p] still
    counts 1 and the object [p] held still counts 1 and is alive, with no
    pointer left to it.  The destructors of [p] and [q] then release the
    shared object twice, the second time after its destruction. *)
Theorem copy_assign_skips_the_counters :
  exists s',
    intrusive_ptr.copy_assign 1 2 two_owners = Some (tt, s')
    /\ intrusive_ptr.get 1 s' = Some (Some 2%positive, s')
    /\ intrusive_ptr.get 2 s' = Some (Some 2%positive, s')
    /\ calls s' = []
    /\ ReferenceCount (Some 2%positive) s' = Some (1, s')
    /\ ReferenceCount (Some 1%positive) s' = Some (1, s')
    /\ (intrusive_ptr.dtor 1 ;; intrusive_ptr.dtor 2) s' = None.
Proof.
  exists (upd_ptrs (insert 1%positive (Some 2%positive)) two_owners).
  split.
  { apply (copy_assign_run two_owners 1 2 (Some 1%positive));
      [discriminate | reflexivity | reflexivity]. }
  repeat split; reflexivity.
Qed.

(** ** Swap (lines 307-310) *)

(** On two pointers that hold live objects, [swap] exchanges the two
    objects' contents, counters included, and writes neither pointer. *)
Lemma swap_run (s : state) (this other : loc) (a b : addr) (oa ob : Object) :
  ptrs s !! this = Some (Some a) ->
  ptrs s !! other = Some (Some b) ->
  objs s !! a = Some oa ->
  objs s !! b = Some ob ->
  intrusive_ptr.swap this other s
  = Some (tt, upd_objs (fun h => <[b := oa]> (<[a := ob]> h)) s).
Proof.
  intros Hthis Hother Ha Hb. unfold intrusive_ptr.swap.
  rewrite (bind_run _ _ _ _ _ (m_pointer_run _ _ _ Hthis)).
  rewrite (bind_run _ _ _ _ _ (get_run _ _ _ Hother)).
  unfold intrusive_ptr.std_swap.
  rewrite (bind_run _ _ _ _ _ (load_run _ _ _ Ha)).
  rewrite (bind_run _ _ _ _ _ (load_run _ _ _ Hb)).
  rewrite (bind_run _ _ _ _ _ (store_run _ _ _ ob Ha)).
  unfold store; simpl.
  destruct (decide (a = b)) as [->|Hab].
  - now rewrite lookup_insert_eq.
  - rewrite lookup_insert_ne by congruence. now rewrite Hb.
Qed.

(** With an empty pointer on either side [swap] reads through a null
    pointer. *)
Lemma swap_empty_ub (s : state) (this other : loc) :
  ptrs s !! this = Some None \/ ptrs s !! other = Some None ->
  intrusive_ptr.swap this other s = None.
Proof.
  intros H. unfold intrusive_ptr.swap.
  destruct (ptrs s !! this) as [p|] eqn:Hthis.
  - rewrite (bind_run _ _ _ _ _ (m_pointer_run _ _ _ Hthis)).
    destruct (ptrs s !! other) as [q|] eqn:Hother.
    + rewrite (bind_run _ _ _ _ _ (get_run _ _ _ Hother)).
      unfold intrusive_ptr.std_swap, bind, load.
      destruct H as [[= ->]|[= ->]]; [reflexivity|].
      destruct p as [a|]; [|reflexivity]. now destruct (objs s !! a).
    + apply bind_ub.
      unfold intrusive_ptr.get, intrusive_ptr.m_pointer. now rewrite Hother.
  - apply bind_ub. unfold intrusive_ptr.m_pointer. now rewrite Hthis.
Qed.

(** C2, on the code: after [swap] of a pointer to an object counted twice
    with a pointer to an object counted once, each pointer holds the raw
    pointer it held before, and the two objects have exchanged their
    contents: the first now counts 1 (it still has two owners) and the
    second counts 2 (it still has one). *)
Theorem swap_exchanges_the_pointees :
  exists s',
    intrusive_ptr.swap 1 2 shared_and_single = Some (tt, s')
    /\ ptrs s' = ptrs shared_and_single
    /\ intrusive_ptr.get 1 s' = Some (Some 1%positive, s')
    /\ intrusive_ptr.get 2 s' = Some (Some 2%positive, s')
    /\ ReferenceCount (Some 1%positive) shared_and_single
       = Some (2, shared_and_single)
    /\ ReferenceCount (Some 1%positive) s' = Some (1, s')
    /\ ReferenceCount (Some 2%positive) shared_and_single
       = Some (1, shared_and_single)
    /\ ReferenceCount (Some 2%positive) s' = Some (2, s')
    /\ objs s' !! 1%positive = Some (mkObject 1 81)
    /\ objs s' !! 2%positive = Some (mkObject 2 18).
Proof.
  eexists. split.
  { apply (swap_run shared_and_single 1 2 1 2 (mkObject 2 18) (mkObject 1 81));
      reflexivity. }
  repeat split; reflexivity.
Qed.

(** ** Move assignment (lines 177-186) *)

(** C3, on the code: the assignment in the body of the move assignment
    operator is ill-formed, there being no implicit conversion from
    [intrusive_ptr<T>] to [T*]; the operator cannot be instantiated, so no
    move assignment transfers, empties or releases anything.  The
    statement that other members use for the same purpose is well-formed:
    the move constructor initializes the member from [other.detach()], a
    [T*]. *)
Theorem move_assign_is_ill_formed :
  assignment_well_formed move_assign_lhs move_assign_rhs = false
  /\ assignment_well_formed move_assign_lhs Raw_pointer = true.
Proof. split; reflexivity. Qed.

(** ** The test suite (tests/intrusive-ptr-tests.cpp)

    Each test is run from the empty store; the value returned is the tuple
    of the values the test asserts on. *)

Example CreateEmptyPtr_Success :
  result (intrusive_ptr.ctor_default 1 ;;
          data <- intrusive_ptr.get 1 ;;
          use_count <- intrusive_ptr.use_count 1 ;;
          ret (data, use_count))
  = Some (None, 0).
Proof. reflexivity. Qed.

Example CreatePtr_Success :
  result (raw_ptr <- new_Object 10 ;;
          intrusive_ptr.ctor_raw 1 raw_ptr true ;;
          data <- intrusive_ptr.get 1 ;;
          o <- load data ;;
          use_count <- intrusive_ptr.use_count 1 ;;
          ret (intrusive_ptr.non_null data, use_count, Value o))
  = Some (true, 1, 10).
Proof. reflexivity. Qed.

Example CopyPtrFromSource_Success :
  result (make_intrusive 1 20 ;;
          intrusive_ptr.ctor_copy 2 1 ;;
          data <- intrusive_ptr.get 2 ;;
          o <- load data ;;
          use_count <- intrusive_ptr.use_count 2 ;;
          ret (intrusive_ptr.non_null data, use_count, Value o))
  = Some (true, 2, 20).
Proof. reflexivity. Qed.

Example MovePtrFromSource_Success :
  result (make_intrusive 1 99 ;;
          intrusive_ptr.ctor_move 2 1 ;;
          mv_data <- intrusive_ptr.get 2 ;;
          o <- load mv_data ;;
          mv_use_count <- intrusive_ptr.use_count 2 ;;
          src <- intrusive_ptr.get 1 ;;
          ret (src, intrusive_ptr.non_null mv_data, mv_use_count, Value o))
  = Some (None, true, 1, 99).
Proof. reflexivity. Qed.

Example ComparePtr_Success :
  result (make_intrusive 1 40 ;;
          intrusive_ptr.ctor_copy 2 1 ;;
          make_intrusive 3 40 ;;
          areEquals <- intrusive_ptr.eq 1 2 ;;
          areNotEquals <- intrusive_ptr.ne 1 3 ;;
          ret (areEquals, areNotEquals))
  = Some (true, true).
Proof. reflexivity. Qed.

Example DetachPtr_Success :
  result (make_intrusive 1 60 ;;
          raw_ptr <- intrusive_ptr.detach 1 ;;
          data <- intrusive_ptr.get 1 ;;
          count <- ReferenceCount raw_ptr ;;
          ret (intrusive_ptr.non_null raw_ptr, data, count))
  = Some (true, None, 1).
Proof. reflexivity. Qed.

Example ResetPtr_Success :
  result (raw_ptr <- new_Object 0 ;;
          make_intrusive 1 60 ;;
          intrusive_ptr.reset 1 raw_ptr true ;;
          data <- intrusive_ptr.get 1 ;;
          o <- load data ;;
          use_count <- intrusive_ptr.use_count 1 ;;
          ret (intrusive_ptr.non_null data, Value o, use_count))
  = Some (true, 0, 1).
Proof. reflexivity. Qed.

Example SwapPtr_Success :
  result (make_intrusive 1 18 ;;
          make_intrusive 2 81 ;;
          intrusive_ptr.swap 1 2 ;;
          o1 <- intrusive_ptr.deref 1 ;;
          o2 <- intrusive_ptr.deref 2 ;;
          c1 <- intrusive_ptr.use_count 1 ;;
          c2 <- intrusive_ptr.use_count 2 ;;
          ret (Value o2, Value o1, c1, c2))
  = Some (18, 81, 1, 1).
Proof. reflexivity. Qed.

(** * Further properties of the header *)

(** ** The factory and the destructor (lines 139-145, 355-360) *)

Lemma ctor_raw_add_ref_run (s : state) (this : loc) (a : addr) (o : Object) :
  objs s !! a = Some o ->
  intrusive_ptr.ctor_raw this (Some a) true s
  = Some (tt, after_add_ref a o (upd_ptrs (insert this (Some a)) s)).
Proof.
  intros Ha. unfold intrusive_ptr.ctor_raw.
  erewrite bind_run by reflexivity.
  rewrite (set_add_ref_run _ this None) with (ob := o).
  - unfold upd_ptrs; simpl. now rewrite insert_insert_eq.
  - simpl. apply lookup_insert_eq.
  - exact Ha.
Qed.

Lemma ctor_raw_adopt_run (s : state) (this : loc) (ptr : raw_ptr) :
  intrusive_ptr.ctor_raw this ptr false s
  = Some (tt, upd_ptrs (insert this ptr) s).
Proof.
  unfold intrusive_ptr.ctor_raw.
  erewrite bind_run by reflexivity.
  rewrite (set_adopt_run _ this None) by (simpl; apply lookup_insert_eq).
  unfold upd_ptrs; simpl. now rewrite insert_insert_eq.
Qed.

(** The state [make_intrusive] leads to. *)
Lemma make_intrusive_run (s : state) (this : loc) (value : Z) :
  let a := fresh (dom (objs s)) in
  make_intrusive this value s
  = Some (tt, {| objs := <[a := mkObject 1 value]> (objs s);
                 ptrs := <[this := Some a]> (ptrs s);
                 calls := CallAddRef (Some a) :: calls s |}).
Proof.
  cbv zeta. unfold make_intrusive.
  rewrite (bind_run _ _ _ _ _ (proj1 (new_Object_run s value))).
  erewrite ctor_raw_add_ref_run by (simpl; apply lookup_insert_eq).
  unfold after_add_ref, upd_ptrs, upd_objs; simpl.
  now rewrite insert_insert_eq.
Qed.

(** X1: [make_intrusive] runs from every state: the new pointer holds an
    object at an address that was not in use, its [Value] is the argument
    and its counter is 1 after exactly one call of
    [intrusive_ptr_add_ref]; every other object and every other pointer
    is as before. *)
Theorem make_intrusive_sole_owner (s : state) (this : loc) (value : Z) :
  exists a s',
    make_intrusive this value s = Some (tt, s')
    /\ objs s !! a = None
    /\ intrusive_ptr.get this s' = Some (Some a, s')
    /\ intrusive_ptr.deref this s' = Some (mkObject 1 value, s')
    /\ intrusive_ptr.use_count this s' = Some (1, s')
    /\ calls s' = CallAddRef (Some a) :: calls s
    /\ (forall a', a' <> a -> objs s' !! a' = objs s !! a')
    /\ (forall q, q <> this -> ptrs s' !! q = ptrs s !! q).
Proof.
  eexists (fresh (dom (objs s))), _.
  split; [apply make_intrusive_run|].
  split; [apply not_elem_of_dom, is_fresh|].
  split; [apply m_pointer_run; simpl; apply lookup_insert_eq|].
  split.
  { unfold intrusive_ptr.deref.
    erewrite bind_run by (apply m_pointer_run; simpl; apply lookup_insert_eq).
    apply load_run. simpl. apply lookup_insert_eq. }
  split.
  { refine (use_count_run _ this (Some _) _ _ (mkObject 1 value) eq_refl _);
      simpl; apply lookup_insert_eq. }
  split; [reflexivity|].
  split; intros x Hx; simpl; now apply lookup_insert_ne.
Qed.

Lemma dtor_holder_run (s : state) (this : loc) (a : addr) (o : Object) :
  ptrs s !! this = Some (Some a) ->
  objs s !! a = Some o ->
  intrusive_ptr.dtor this s
  = Some (tt, upd_ptrs (delete this) (after_release a o s)).
Proof.
  intros Hthis Ha. unfold intrusive_ptr.dtor.
  rewrite (bind_run _ _ _ _ _ (m_pointer_run _ _ _ Hthis)).
  cbn [intrusive_ptr.non_null].
  rewrite (bind_run _ _ _ _ _ (release_run _ _ _ Ha)).
  unfold intrusive_ptr.end_lifetime.
  change (ptrs (after_release a o s)) with (ptrs s). now rewrite Hthis.
Qed.

Lemma dtor_empty_run (s : state) (this : loc) :
  ptrs s !! this = Some None ->
  intrusive_ptr.dtor this s = Some (tt, upd_ptrs (delete this) s).
Proof.
  intros Hthis. unfold intrusive_ptr.dtor.
  rewrite (bind_run _ _ _ _ _ (m_pointer_run _ _ _ Hthis)).
  cbn [intrusive_ptr.non_null]. unfold bind, ret, intrusive_ptr.end_lifetime.
  now rewrite Hthis.
Qed.

(** X2: the destructor of a pointer that holds a live object makes exactly
    one call, the release of that object, which takes one off its counter
    and destroys it if and only if that gives 0; the pointer instance is
    gone afterwards (reading it is undefined), and the other objects and
    pointers are as before.  The destructor of an empty pointer calls
    nothing and touches no object. *)
Theorem dtor_releases_once (s : state) (this : loc) :
  (forall a o,
      ptrs s !! this = Some (Some a) ->
      objs s !! a = Some o ->
      exists s',
        intrusive_ptr.dtor this s = Some (tt, s')
        /\ calls s' = CallRelease (Some a) :: calls s
        /\ (wrap32 (m_ref_count o - 1) = 0 <-> objs s' !! a = None)
        /\ (wrap32 (m_ref_count o - 1) <> 0 ->
            objs s' !! a
            = Some (with_ref_count (wrap32 (m_ref_count o - 1)) o))
        /\ (forall a', a' <> a -> objs s' !! a' = objs s !! a')
        /\ ptrs s' = delete this (ptrs s)
        /\ intrusive_ptr.get this s' = None)
  /\ (ptrs s !! this = Some None ->
      exists s',
        intrusive_ptr.dtor this s = Some (tt, s')
        /\ calls s' = calls s
        /\ objs s' = objs s
        /\ ptrs s' = delete this (ptrs s)
        /\ intrusive_ptr.get this s' = None).
Proof.
  split.
  - intros a o Hthis Ha.
    exists (upd_ptrs (delete this) (after_release a o s)).
    split; [now apply dtor_holder_run|].
    split; [reflexivity|].
    change (objs (upd_ptrs (delete this) (after_release a o s)))
      with (objs (after_release a o s)).
    split.
    { rewrite after_release_lookup, decide_True by reflexivity.
      destruct (Z.eqb_spec (wrap32 (m_ref_count o - 1)) 0); split;
        congruence. }
    split; [apply after_release_live|].
    split.
    { intros a' Hne. rewrite after_release_lookup, decide_False; congruence. }
    split; [reflexivity|].
    unfold intrusive_ptr.get, intrusive_ptr.m_pointer. simpl.
    now rewrite lookup_delete_eq.
  - intros Hthis. exists (upd_ptrs (delete this) s).
    split; [now apply dtor_empty_run|].
    repeat split.
    unfold intrusive_ptr.get, intrusive_ptr.m_pointer. simpl.
    now rewrite lookup_delete_eq.
Qed.

Lemma dtor_releases_once_witness :
  (exists s',
      intrusive_ptr.dtor 1 two_and_empty = Some (tt, s')
      /\ calls s' = [CallRelease (Some 1%positive)]
      /\ objs s' !! 1%positive = None
      /\ intrusive_ptr.get 1 s' = None)
  /\ (exists s',
        intrusive_ptr.dtor 3 two_and_empty = Some (tt, s')
        /\ calls s' = []
        /\ objs s' = objs two_and_empty).
Proof.
  destruct (dtor_releases_once two_and_empty 1) as [Hholder _].
  destruct (dtor_releases_once two_and_empty 3) as [_ Hempty].
  split.
  - destruct (Hholder 1%positive (mkObject 1 18) eq_refl eq_refl)
      as (s' & Hd & Hc & Hz & _ & _ & _ & Hg).
    exists s'. split; [exact Hd|]. split; [exact Hc|].
    split; [now apply Hz | exact Hg].
  - destruct (Hempty eq_refl) as (s' & Hd & Hc & Ho & _).
    exists s'. repeat split; assumption.
Defined.

(** X3: building an object with [make_intrusive] and destroying the
    pointer again gives back the heap there was: the object is destroyed
    by the one release that follows the one add, and no other object is
    touched. *)
Theorem make_then_destroy_restores_heap (s : state) (this : loc) (value : Z) :
  exists a s',
    (make_intrusive this value ;; intrusive_ptr.dtor this) s = Some (tt, s')
    /\ objs s' = objs s
    /\ ptrs s' = delete this (ptrs s)
    /\ calls s' = CallRelease (Some a) :: CallAddRef (Some a) :: calls s.
Proof.
  set (a := fresh (dom (objs s))).
  assert (Hfresh : objs s !! a = None) by apply not_elem_of_dom, is_fresh.
  eexists a, _. split.
  { rewrite (bind_run _ _ _ _ _ (make_intrusive_run s this value)).
    apply (dtor_holder_run _ this a (mkObject 1 value));
      simpl; apply lookup_insert_eq. }
  split; [|split; [|reflexivity]].
  - simpl. rewrite delete_insert_eq. now apply delete_id.
  - simpl. now rewrite delete_insert_eq.
Qed.

(** ** Copies, adoption and comparison *)

Lemma with_ref_count_twice (c c' : Z) (o : Object) :
  with_ref_count c (with_ref_count c' o) = with_ref_count c o.
Proof. reflexivity. Qed.

Lemma with_ref_count_id (o : Object) :
  with_ref_count (m_ref_count o) o = o.
Proof. now destruct o. Qed.

(** X4: a copy that is constructed and destroyed again leaves every
    object as it was: the counter of the shared object goes up by one and
    down by one, and the object is not destroyed on the way. *)
Theorem copy_then_destroy_restores_heap
    (s : state) (p q : loc) (a : addr) (o : Object) :
  p <> q ->
  ptrs s !! p = Some (Some a) ->
  objs s !! a = Some o ->
  1 <= m_ref_count o < UINT32_MODULUS ->
  exists s',
    (intrusive_ptr.ctor_copy q p ;; intrusive_ptr.dtor q) s = Some (tt, s')
    /\ objs s' = objs s
    /\ ptrs s' = delete q (ptrs s)
    /\ intrusive_ptr.use_count p s' = Some (m_ref_count o, s')
    /\ calls s' = CallRelease (Some a) :: CallAddRef (Some a) :: calls s.
Proof.
  intros Hpq Hp Ha Hrange.
  set (o1 := with_ref_count (wrap32 (m_ref_count o + 1)) o).
  set (s1 := after_add_ref a o (upd_ptrs (insert q (Some a)) s)).
  assert (Hc : wrap32 (m_ref_count o1 - 1) = m_ref_count o)
    by (apply wrap32_succ_pred; lia).
  assert (Hobjs : objs (upd_ptrs (delete q) (after_release a o1 s1)) = objs s).
  { change (objs (upd_ptrs (delete q) (after_release a o1 s1)))
      with (objs (after_release a o1 s1)).
    apply map_eq. intros a'. rewrite after_release_lookup.
    destruct (decide (a = a')) as [<-|Hne].
    - rewrite Hc. destruct (Z.eqb_spec (m_ref_count o) 0) as [Hz|_]; [lia|].
      unfold o1. now rewrite with_ref_count_twice, with_ref_count_id.
    - unfold s1. now rewrite after_add_ref_lookup, decide_False. }
  exists (upd_ptrs (delete q) (after_release a o1 s1)).
  split.
  { rewrite (bind_run _ _ _ _ _ (ctor_copy_run s p q a o Hpq Hp Ha)).
    apply (dtor_holder_run s1 q a o1); simpl; apply lookup_insert_eq. }
  split; [exact Hobjs|].
  split; [simpl; now rewrite delete_insert_eq|].
  split; [|reflexivity].
  refine (use_count_run _ p (Some a) _ a o eq_refl _).
  - simpl. rewrite lookup_delete_ne by congruence.
    now rewrite lookup_insert_ne by congruence.
  - rewrite Hobjs. exact Ha.
Qed.

Lemma copy_then_destroy_restores_heap_witness :
  exists s',
    (intrusive_ptr.ctor_copy 3 1 ;; intrusive_ptr.dtor 3) two_owners
    = Some (tt, s')
    /\ objs s' = objs two_owners
    /\ intrusive_ptr.use_count 1 s' = Some (1, s').
Proof.
  destruct (copy_then_destroy_restores_heap two_owners 1 3 1 (mkObject 1 18))
    as (s' & Hr & Ho & _ & Hu & _);
    [discriminate | reflexivity | reflexivity
     | unfold UINT32_MODULUS; simpl; lia |].
  exists s'. repeat split; assumption.
Defined.

(** X5: handing the raw pointer over by hand is the move constructor:
    [detach] on the source followed by the construction of the destination
    from the raw pointer with [add_ref = false] does, in every state, what
    move construction does (and is undefined exactly when it is). *)
Theorem detach_then_adopt_is_move (s : state) (this q : loc) :
  (ptr <- intrusive_ptr.detach this ;; intrusive_ptr.ctor_raw q ptr false) s
  = intrusive_ptr.ctor_move q this s.
Proof.
  unfold intrusive_ptr.ctor_move.
  destruct (ptrs s !! this) as [v|] eqn:Hthis.
  - rewrite !(bind_run _ _ _ _ _ (detach_run _ _ _ Hthis)).
    apply ctor_raw_adopt_run.
  - assert (Hub : intrusive_ptr.detach this s = None).
    { apply bind_ub. unfold intrusive_ptr.m_pointer. now rewrite Hthis. }
    now rewrite !(bind_ub _ _ _ Hub).
Qed.

(** X6: the flag of the raw-pointer constructor decides between retaining
    and adopting.  With [add_ref = false] the pointer holds the object
    without any call and the count it reports is the one the object
    had; with [add_ref = true] it reports that count plus one. *)
Theorem ctor_raw_flag (s : state) (this : loc) (a : addr) (o : Object) :
  objs s !! a = Some o ->
  (exists s',
      intrusive_ptr.ctor_raw this (Some a) false s = Some (tt, s')
      /\ intrusive_ptr.get this s' = Some (Some a, s')
      /\ intrusive_ptr.use_count this s' = Some (m_ref_count o, s')
      /\ calls s' = calls s
      /\ objs s' = objs s)
  /\ (exists s',
        intrusive_ptr.ctor_raw this (Some a) true s = Some (tt, s')
        /\ intrusive_ptr.get this s' = Some (Some a, s')
        /\ intrusive_ptr.use_count this s'
           = Some (wrap32 (m_ref_count o + 1), s')
        /\ calls s' = CallAddRef (Some a) :: calls s
        /\ (forall a', a' <> a -> objs s' !! a' = objs s !! a')).
Proof.
  intros Ha. split.
  - exists (upd_ptrs (insert this (Some a)) s).
    assert (H : ptrs (upd_ptrs (insert this (Some a)) s) !! this
                = Some (Some a)) by (simpl; apply lookup_insert_eq).
    split; [apply ctor_raw_adopt_run|].
    split; [now apply m_pointer_run|].
    split; [now apply (use_count_run _ this (Some a) H a o)|].
    split; reflexivity.
  - exists (after_add_ref a o (upd_ptrs (insert this (Some a)) s)).
    assert (H : ptrs (after_add_ref a o (upd_ptrs (insert this (Some a)) s))
                !! this = Some (Some a)) by (simpl; apply lookup_insert_eq).
    split; [now apply ctor_raw_add_ref_run|].
    split; [now apply m_pointer_run|].
    split.
    { refine (use_count_run _ this (Some a) H a
                (with_ref_count (wrap32 (m_ref_count o + 1)) o) eq_refl _).
      simpl. apply lookup_insert_eq. }
    split; [reflexivity|].
    intros a' Hne.
    rewrite after_add_ref_lookup, decide_False; [reflexivity | congruence].
Qed.

Lemma ctor_raw_flag_witness :
  (exists s',
      intrusive_ptr.ctor_raw 2 (Some 1%positive) false one_owner
      = Some (tt, s')
      /\ intrusive_ptr.use_count 2 s' = Some (1, s'))
  /\ (exists s',
        intrusive_ptr.ctor_raw 2 (Some 1%positive) true one_owner
        = Some (tt, s')
        /\ intrusive_ptr.use_count 2 s' = Some (2, s')).
Proof.
  destruct (ctor_raw_flag one_owner 2 1 (mkObject 1 60) eq_refl)
    as ((s1 & Hr1 & _ & Hu1 & _) & (s2 & Hr2 & _ & Hu2 & _)).
  split; [exists s1 | exists s2]; split; assumption.
Defined.

(** X7: [reset] with [add_ref = false] to the object the pointer already
    holds, when the pointer is its only owner, destroys the object and
    leaves the pointer holding its address: the acquisition that protects
    [reset(ptr)] is skipped, and the next [use_count] reads a dead
    object. *)
Theorem reset_adopt_self_dangles
    (s : state) (this : loc) (a : addr) (o : Object) :
  ptrs s !! this = Some (Some a) ->
  objs s !! a = Some o ->
  m_ref_count o = 1 ->
  exists s',
    intrusive_ptr.reset this (Some a) false s = Some (tt, s')
    /\ intrusive_ptr.get this s' = Some (Some a, s')
    /\ objs s' !! a = None
    /\ calls s' = CallRelease (Some a) :: calls s
    /\ intrusive_ptr.use_count this s' = None
    /\ intrusive_ptr.deref this s' = None.
Proof.
  intros Hthis Ha Hone.
  set (s1 := upd_ptrs (insert this (Some a)) s).
  assert (Hdead : objs (after_release a o s1) !! a = None).
  { rewrite after_release_lookup, decide_True by reflexivity.
    now rewrite Hone. }
  assert (Hslot : ptrs (after_release a o s1) !! this = Some (Some a))
    by (simpl; apply lookup_insert_eq).
  exists (after_release a o s1).
  split.
  { apply (reset_run s s1 this a o); [exact Hthis | | exact Ha].
    now apply (set_adopt_run s this (Some a)). }
  split; [now apply m_pointer_run|].
  split; [exact Hdead|].
  split; [reflexivity|].
  split.
  - unfold intrusive_ptr.use_count.
    rewrite (bind_run _ _ _ _ _ (m_pointer_run _ _ _ Hslot)).
    cbn [intrusive_ptr.non_null]. unfold ReferenceCount.
    apply bind_ub. unfold load. now rewrite Hdead.
  - unfold intrusive_ptr.deref.
    rewrite (bind_run _ _ _ _ _ (m_pointer_run _ _ _ Hslot)).
    unfold load. now rewrite Hdead.
Qed.

Lemma reset_adopt_self_dangles_witness :
  exists s',
    intrusive_ptr.reset 1 (Some 1%positive) false one_owner = Some (tt, s')
    /\ intrusive_ptr.get 1 s' = Some (Some 1%positive, s')
    /\ objs s' !! 1%positive = None
    /\ intrusive_ptr.use_count 1 s' = None.
Proof.
  destruct (reset_adopt_self_dangles one_owner 1 1 (mkObject 1 60)
              eq_refl eq_refl eq_refl)
    as (s' & Hr & Hg & Ho & _ & Hu & _).
  exists s'. repeat split; assumption.
Defined.

(** X8: on an empty pointer [reset] is [set]: it acquires and releases
    nothing, whatever the raw pointer and the flag. *)
Theorem reset_of_empty_is_set
    (s : state) (this : loc) (ptr : raw_ptr) (add_ref : bool) :
  ptrs s !! this = Some None ->
  intrusive_ptr.reset this ptr add_ref s
  = intrusive_ptr.set this ptr add_ref s.
Proof.
  intros Hthis. unfold intrusive_ptr.reset.
  rewrite (bind_run _ _ _ _ _ (m_pointer_run _ _ _ Hthis)).
  cbn [intrusive_ptr.non_null]. unfold bind, ret.
  now destruct (intrusive_ptr.set this ptr add_ref s) as [[[] s']|].
Qed.

Lemma reset_of_empty_is_set_witness :
  intrusive_ptr.reset 3 (Some 1%positive) true two_and_empty
  = intrusive_ptr.set 3 (Some 1%positive) true two_and_empty.
Proof. apply (reset_of_empty_is_set two_and_empty 3); reflexivity. Defined.

(** X9: on live pointer instances [operator==] is an equivalence: every
    pointer equals itself, the answer does not depend on the order of the
    operands, and equality passes along a chain; whatever the answer, the
    comparison leaves the state as it was. *)
Theorem eq_is_an_equivalence
    (s : state) (p q r : loc) (vp vq vr : raw_ptr) :
  ptrs s !! p = Some vp ->
  ptrs s !! q = Some vq ->
  ptrs s !! r = Some vr ->
  (exists b, intrusive_ptr.eq p q s = Some (b, s))
  /\ intrusive_ptr.eq p p s = Some (true, s)
  /\ intrusive_ptr.eq p q s = intrusive_ptr.eq q p s
  /\ (intrusive_ptr.eq p q s = Some (true, s) ->
      intrusive_ptr.eq q r s = Some (true, s) ->
      intrusive_ptr.eq p r s = Some (true, s)).
Proof.
  intros Hp Hq Hr.
  rewrite (eq_run _ _ _ _ _ Hp Hp), (eq_run _ _ _ _ _ Hp Hq),
    (eq_run _ _ _ _ _ Hq Hp), (eq_run _ _ _ _ _ Hq Hr),
    (eq_run _ _ _ _ _ Hp Hr).
  split; [now exists (bool_decide (vp = vq))|].
  split; [now rewrite bool_decide_eq_true_2|].
  split.
  - destruct (decide (vp = vq)) as [->|Hne].
    + now rewrite bool_decide_eq_true_2.
    + rewrite !bool_decide_eq_false_2; [reflexivity | congruence | exact Hne].
  - intros [= H1%bool_decide_eq_true] [= H2%bool_decide_eq_true].
    rewrite bool_decide_eq_true_2; [reflexivity | congruence].
Qed.

Lemma eq_is_an_equivalence_witness :
  intrusive_ptr.eq 1 2 two_and_empty = Some (false, two_and_empty)
  /\ intrusive_ptr.eq 1 1 two_and_empty = Some (true, two_and_empty)
  /\ intrusive_ptr.eq 1 2 two_and_empty = intrusive_ptr.eq 2 1 two_and_empty.
Proof.
  destruct (eq_is_an_equivalence two_and_empty 1 2 3 (Some 1%positive)
              (Some 2%positive) None eq_refl eq_refl eq_refl)
    as ((b & Hb) & Hrefl & Hsym & _).
  split; [|split; assumption].
  rewrite Hb. f_equal. f_equal.
  assert (Hrun : intrusive_ptr.eq 1 2 two_and_empty
                 = Some (false, two_and_empty)) by reflexivity.
  rewrite Hrun in Hb. now injection Hb as <-.
Defined.

(** X10: after a copy assignment between live pointer instances the two
    compare equal, the source holds what it held and no third pointer has
    changed; assigning a pointer to itself leaves the whole state as it
    was. *)
Theorem copy_assign_makes_equal
    (s : state) (this other : loc) (old v : raw_ptr) :
  ptrs s !! this = Some old ->
  ptrs s !! other = Some v ->
  exists s',
    intrusive_ptr.copy_assign this other s = Some (tt, s')
    /\ intrusive_ptr.eq this other s' = Some (true, s')
    /\ intrusive_ptr.get this s' = Some (v, s')
    /\ intrusive_ptr.get other s' = Some (v, s')
    /\ (forall q, q <> this -> ptrs s' !! q = ptrs s !! q)
    /\ (this = other -> s' = s).
Proof.
  intros Hthis Hother.
  destruct (decide (this = other)) as [<-|Hne].
  - assert (old = v) as -> by congruence.
    exists s. split; [apply copy_assign_self_run|].
    split.
    { rewrite (eq_run _ _ _ _ _ Hthis Hthis).
      now rewrite bool_decide_eq_true_2. }
    repeat split; now apply m_pointer_run.
  - exists (upd_ptrs (insert this v) s).
    assert (H1 : ptrs (upd_ptrs (insert this v) s) !! this = Some v)
      by (simpl; apply lookup_insert_eq).
    assert (H2 : ptrs (upd_ptrs (insert this v) s) !! other = Some v)
      by (simpl; now rewrite lookup_insert_ne).
    split; [now apply (copy_assign_run s this other old v)|].
    split.
    { rewrite (eq_run _ _ _ _ _ H1 H2). now rewrite bool_decide_eq_true_2. }
    split; [now apply m_pointer_run|].
    split; [now apply m_pointer_run|].
    split; [|congruence].
    intros q Hq. simpl. now apply lookup_insert_ne.
Qed.

Lemma copy_assign_makes_equal_witness :
  exists s',
    intrusive_ptr.copy_assign 3 1 two_and_empty = Some (tt, s')
    /\ intrusive_ptr.eq 3 1 s' = Some (true, s')
    /\ intrusive_ptr.get 3 s' = Some (Some 1%positive, s').
Proof.
  destruct (copy_assign_makes_equal two_and_empty 3 1 None (Some 1%positive)
              eq_refl eq_refl)
    as (s' & Hr & He & Hg & _).
  exists s'. repeat split; assumption.
Defined.

(** ** Swap as the code performs it (lines 307-310) *)

(** X11: on two pointers that hold live objects [swap] does not depend on
    which of the two it is called on, and leaves the state as it was when
    the two hold the same object. *)
Theorem swap_is_symmetric
    (s : state) (p q : loc) (a b : addr) (oa ob : Object) :
  ptrs s !! p = Some (Some a) ->
  ptrs s !! q = Some (Some b) ->
  objs s !! a = Some oa ->
  objs s !! b = Some ob ->
  intrusive_ptr.swap p q s = intrusive_ptr.swap q p s
  /\ (a = b -> intrusive_ptr.swap p q s = Some (tt, s)).
Proof.
  intros Hp Hq Ha Hb.
  rewrite (swap_run s p q a b oa ob Hp Hq Ha Hb).
  rewrite (swap_run s q p b a ob oa Hq Hp Hb Ha).
  split.
  - do 2 f_equal. unfold upd_objs. f_equal.
    destruct (decide (a = b)) as [->|Hne].
    + assert (oa = ob) as -> by congruence. reflexivity.
    + now apply insert_insert_ne.
  - intros ->. assert (oa = ob) as -> by congruence.
    do 2 f_equal. destruct s as [h pt cl]; unfold upd_objs; simpl in *.
    f_equal. rewrite insert_insert_eq. now apply insert_id.
Qed.

Lemma swap_is_symmetric_witness :
  intrusive_ptr.swap 1 2 two_owners = intrusive_ptr.swap 2 1 two_owners.
Proof.
  apply (swap_is_symmetric two_owners 1 2 1 2 (mkObject 1 18) (mkObject 1 81));
    reflexivity.
Defined.

(** X12: swapping twice gives back the state there was: the second
    exchange of the two objects' contents undoes the first. *)
Theorem swap_twice_is_identity
    (s : state) (p q : loc) (a b : addr) (oa ob : Object) :
  ptrs s !! p = Some (Some a) ->
  ptrs s !! q = Some (Some b) ->
  objs s !! a = Some oa ->
  objs s !! b = Some ob ->
  (intrusive_ptr.swap p q ;; intrusive_ptr.swap p q) s = Some (tt, s).
Proof.
  intros Hp Hq Ha Hb.
  rewrite (bind_run _ _ _ _ _ (swap_run s p q a b oa ob Hp Hq Ha Hb)).
  set (s1 := upd_objs (fun h => <[b := oa]> (<[a := ob]> h)) s).
  assert (Ha1 : objs s1 !! a = Some ob).
  { simpl. destruct (decide (a = b)) as [->|Hne].
    - rewrite lookup_insert_eq. congruence.
    - rewrite lookup_insert_ne by congruence. apply lookup_insert_eq. }
  assert (Hb1 : objs s1 !! b = Some oa) by (simpl; apply lookup_insert_eq).
  rewrite (swap_run s1 p q a b ob oa Hp Hq Ha1 Hb1).
  do 2 f_equal. destruct s as [h pt cl]; unfold s1, upd_objs; simpl in *.
  f_equal. apply map_eq. intros x.
  destruct (decide (x = b)) as [->|Hxb].
  - rewrite lookup_insert_eq. symmetry. exact Hb.
  - rewrite (lookup_insert_ne _ b x) by congruence.
    destruct (decide (x = a)) as [->|Hxa].
    + rewrite lookup_insert_eq. symmetry. exact Ha.
    + rewrite (lookup_insert_ne _ a x) by congruence.
      rewrite (lookup_insert_ne _ b x) by congruence.
      now rewrite (lookup_insert_ne _ a x) by congruence.
Qed.

Lemma swap_twice_is_identity_witness :
  (intrusive_ptr.swap 1 2 ;; intrusive_ptr.swap 1 2) shared_and_single
  = Some (tt, shared_and_single).
Proof.
  apply (swap_twice_is_identity shared_and_single 1 2 1 2
           (mkObject 2 18) (mkObject 1 81)); reflexivity.
Defined.

(** ** Objects change only through the two counter functions *)

Lemma only_through_calls_ret {A : Type} (x : A) : only_through_calls (ret x).
Proof. intros s y s' H. inversion H; subst. exists []; split; reflexivity. Qed.

Lemma only_through_calls_bind {A B : Type} (m : M A) (k : A -> M B) :
  only_through_calls m ->
  (forall x, only_through_calls (k x)) ->
  only_through_calls (bind m k).
Proof.
  intros Hm Hk s y s' Hrun. unfold bind in Hrun.
  destruct (m s) as [[x s1]|] eqn:E; [|discriminate].
  destruct (Hm _ _ _ E) as (new1 & Hc1 & Ho1).
  destruct (Hk x _ _ _ Hrun) as (new2 & Hc2 & Ho2).
  exists (new2 ++ new1). split.
  - rewrite Hc2, Hc1. apply app_assoc.
  - rewrite Ho2, Ho1. unfold replay. now rewrite foldr_app.
Qed.

Lemma only_through_calls_if {A : Type} (b : bool) (m1 m2 : M A) :
  only_through_calls m1 -> only_through_calls m2 ->
  only_through_calls (if b then m1 else m2).
Proof. now destruct b. Qed.

Lemma only_through_calls_m_pointer (this : loc) :
  only_through_calls (intrusive_ptr.m_pointer this).
Proof.
  intros s x s' H. unfold intrusive_ptr.m_pointer in H.
  destruct (ptrs s !! this); [|discriminate].
  inversion H; subst. exists []; split; reflexivity.
Qed.

Lemma only_through_calls_assign (this : loc) (ptr : raw_ptr) :
  only_through_calls (intrusive_ptr.assign_m_pointer this ptr).
Proof.
  intros s x s' H. unfold intrusive_ptr.assign_m_pointer in H.
  destruct (ptrs s !! this); [|discriminate].
  inversion H; subst. exists []; split; reflexivity.
Qed.

Lemma only_through_calls_init (this : loc) (ptr : raw_ptr) :
  only_through_calls (intrusive_ptr.init_m_pointer this ptr).
Proof. intros s x s' H. inversion H; subst. exists []; split; reflexivity. Qed.

Lemma only_through_calls_end (this : loc) :
  only_through_calls (intrusive_ptr.end_lifetime this).
Proof.
  intros s x s' H. unfold intrusive_ptr.end_lifetime in H.
  destruct (ptrs s !! this); [|discriminate].
  inversion H; subst. exists []; split; reflexivity.
Qed.

Lemma only_through_calls_ReferenceCount (ptr : raw_ptr) :
  only_through_calls (ReferenceCount ptr).
Proof.
  intros s x s' H. unfold ReferenceCount, bind, load, ret in H.
  destruct ptr as [a|]; [|discriminate].
  destruct (objs s !! a); [|discriminate].
  inversion H; subst. exists []; split; reflexivity.
Qed.

Lemma only_through_calls_load (ptr : raw_ptr) :
  only_through_calls (load ptr).
Proof.
  intros s x s' H. unfold load in H.
  destruct ptr as [a|]; [|discriminate].
  destruct (objs s !! a); [|discriminate].
  inversion H; subst. exists []; split; reflexivity.
Qed.

Lemma add_ref_defined (ptr : raw_ptr) (s s' : state) (x : unit) :
  intrusive_ptr_add_ref ptr s = Some (x, s') ->
  exists a o, ptr = Some a /\ objs s !! a = Some o
              /\ s' = after_add_ref a o s.
Proof.
  intros H. destruct ptr as [a|]; [|discriminate].
  destruct (objs s !! a) as [o|] eqn:Ha.
  - rewrite (add_ref_run s a o Ha) in H. injection H as <-. now exists a, o.
  - unfold intrusive_ptr_add_ref, bind, log, load in H. simpl in H.
    now rewrite Ha in H.
Qed.

Lemma release_defined (ptr : raw_ptr) (s s' : state) (x : unit) :
  intrusive_ptr_release ptr s = Some (x, s') ->
  exists a o, ptr = Some a /\ objs s !! a = Some o
              /\ s' = after_release a o s.
Proof.
  intros H. destruct ptr as [a|]; [|discriminate].
  destruct (objs s !! a) as [o|] eqn:Ha.
  - rewrite (release_run s a o Ha) in H. injection H as <-. now exists a, o.
  - unfold intrusive_ptr_release, bind, log, load in H. simpl in H.
    now rewrite Ha in H.
Qed.

Lemma only_through_calls_add_ref (ptr : raw_ptr) :
  only_through_calls (intrusive_ptr_add_ref ptr).
Proof.
  intros s x s' H.
  destruct (add_ref_defined _ _ _ _ H) as (a & o & -> & Ha & ->).
  exists [CallAddRef (Some a)]. split; [reflexivity|].
  simpl. now rewrite Ha.
Qed.

Lemma only_through_calls_release (ptr : raw_ptr) :
  only_through_calls (intrusive_ptr_release ptr).
Proof.
  intros s x s' H.
  destruct (release_defined _ _ _ _ H) as (a & o & -> & Ha & ->).
  exists [CallRelease (Some a)]. split; [reflexivity|].
  simpl. now rewrite Ha.
Qed.

Create HintDb mediated.

#[local] Hint Resolve only_through_calls_ret only_through_calls_m_pointer
  only_through_calls_assign only_through_calls_init only_through_calls_end
  only_through_calls_ReferenceCount only_through_calls_load
  only_through_calls_add_ref only_through_calls_release : mediated.

Ltac mediated :=
  repeat (intros; first
    [ solve [auto with mediated]
    | apply only_through_calls_bind
    | apply only_through_calls_if ]).

Lemma only_through_calls_set (this : loc) (ptr : raw_ptr) (add_ref : bool) :
  only_through_calls (intrusive_ptr.set this ptr add_ref).
Proof. unfold intrusive_ptr.set. mediated. Qed.

Lemma only_through_calls_detach (this : loc) :
  only_through_calls (intrusive_ptr.detach this).
Proof. unfold intrusive_ptr.detach. mediated. Qed.

Lemma only_through_calls_eq (this other : loc) :
  only_through_calls (intrusive_ptr.eq this other).
Proof. unfold intrusive_ptr.eq, intrusive_ptr.get. mediated. Qed.

(** X13: every constructor, the destructor and every member function
    other than [swap] changes the objects only by calling
    [intrusive_ptr_add_ref] and [intrusive_ptr_release]: the heap it ends
    with is the heap it started from with the calls it logged applied in
    order.  In particular a member that logs no call leaves every object
    as it was. *)
Theorem members_change_objects_only_through_calls :
  (forall this, only_through_calls (intrusive_ptr.ctor_default this))
  /\ (forall this ptr add_ref,
        only_through_calls (intrusive_ptr.ctor_raw this ptr add_ref))
  /\ (forall this other, only_through_calls (intrusive_ptr.ctor_copy this other))
  /\ (forall this other, only_through_calls (intrusive_ptr.ctor_move this other))
  /\ (forall this, only_through_calls (intrusive_ptr.dtor this))
  /\ (forall this other,
        only_through_calls (intrusive_ptr.copy_assign this other))
  /\ (forall this, only_through_calls (intrusive_ptr.arrow this))
  /\ (forall this, only_through_calls (intrusive_ptr.deref this))
  /\ (forall this, only_through_calls (intrusive_ptr.to_bool this))
  /\ (forall this other, only_through_calls (intrusive_ptr.eq this other))
  /\ (forall this other, only_through_calls (intrusive_ptr.ne this other))
  /\ (forall this, only_through_calls (intrusive_ptr.get this))
  /\ (forall this, only_through_calls (intrusive_ptr.detach this))
  /\ (forall this ptr add_ref,
        only_through_calls (intrusive_ptr.reset this ptr add_ref))
  /\ (forall this, only_through_calls (intrusive_ptr.use_count this)).
Proof.
  pose proof only_through_calls_set. pose proof only_through_calls_detach.
  pose proof only_through_calls_eq.
  repeat split; intros;
    unfold intrusive_ptr.ctor_default, intrusive_ptr.ctor_raw,
      intrusive_ptr.ctor_copy, intrusive_ptr.ctor_move, intrusive_ptr.dtor,
      intrusive_ptr.copy_assign, intrusive_ptr.arrow, intrusive_ptr.deref,
      intrusive_ptr.to_bool, intrusive_ptr.ne, intrusive_ptr.get,
      intrusive_ptr.reset, intrusive_ptr.use_count;
    mediated.
Qed.

Lemma members_change_objects_only_through_calls_witness :
  exists s' new,
    intrusive_ptr.reset 1 (Some 2%positive) true two_owners = Some (tt, s')
    /\ calls s' = new ++ calls two_owners
    /\ objs s' = replay new (objs two_owners).
Proof.
  destruct members_change_objects_only_through_calls
    as (_ & _ & _ & _ & _ & _ & _ & _ & _ & _ & _ & _ & _ & Hreset & _).
  destruct (intrusive_ptr.reset 1 (Some 2%positive) true two_owners)
    as [[[] s']|] eqn:E; [|discriminate].
  destruct (Hreset _ _ _ _ _ _ E) as (new & Hc & Ho).
  exists s', new. repeat split; assumption.
Defined.

(** ** The count is the number of owners *)

Lemma owners_delete (a l : positive) (m : gmap positive (option positive)) :
  (owners a (delete l m) + share a (m !! l))%nat = owners a m.
Proof.
  unfold owners, share. rewrite map_filter_delete.
  set (held := filter _ m).
  destruct (held !! l) as [v|] eqn:E.
  - rewrite map_size_delete_Some by eauto.
    pose proof E as E'.
    apply map_lookup_filter_Some in E' as [Hl Hv]. simpl in Hv. subst v.
    rewrite decide_True by exact Hl.
    assert (size held <> 0%nat)
      by (apply (map_size_ne_0_lookup_2 _ l); now exists (Some a)).
    lia.
  - rewrite map_size_delete_None by exact E.
    apply map_lookup_filter_None in E.
    rewrite decide_False; [lia|].
    intros Hl. destruct E as [E|E]; [congruence|].
    now apply (E (Some a)).
Qed.

Lemma owners_insert (a l : positive) (v : option positive)
    (m : gmap positive (option positive)) :
  (owners a (<[l := v]> m) + share a (m !! l))%nat
  = (owners a m + share a (Some v))%nat.
Proof.
  rewrite <- (owners_delete a l m).
  assert (owners a (<[l := v]> m)
          = (owners a (delete l m) + share a (Some v))%nat) as ->; [|lia].
  rewrite <- (insert_delete_eq m). unfold owners, share.
  destruct (decide (v = Some a)) as [->|Hv].
  - rewrite map_filter_insert_True by reflexivity.
    rewrite decide_True by reflexivity.
    rewrite map_size_insert_None; [now rewrite Nat.add_1_r|].
    apply map_lookup_filter_None. left. apply lookup_delete_eq.
  - rewrite map_filter_insert_False by exact Hv.
    rewrite decide_False by congruence.
    rewrite delete_delete_eq. now rewrite Nat.add_0_r.
Qed.


Lemma share_other (a b : positive) : a <> b -> share a (Some (Some b)) = 0%nat.
Proof. intros H. unfold share. rewrite decide_False; congruence. Qed.

Lemma share_none (a : positive) : share a None = 0%nat.
Proof. reflexivity. Qed.

Lemma share_null (a : positive) : share a (Some None) = 0%nat.
Proof. reflexivity. Qed.

Lemma share_same (a : positive) : share a (Some (Some a)) = 1%nat.
Proof. unfold share. now rewrite decide_True. Qed.

(** Three ways a well-counted state stays well-counted: the pointers are
    rearranged with every object keeping its owners; one object gains an
    owner and a count; one object loses an owner and a count, and its
    life with the last of them. *)
Lemma well_counted_rearranged (s s' : state) :
  well_counted s ->
  objs s' = objs s ->
  (forall a, owners a (ptrs s') = owners a (ptrs s)) ->
  (forall l a, ptrs s' !! l = Some (Some a) -> is_Some (objs s !! a)) ->
  well_counted s'.
Proof.
  intros [Halive Hcount Howned] Hobjs Hown Hlive. split.
  - intros l a Hl. rewrite Hobjs. eauto.
  - intros a o Ha. rewrite Hobjs in Ha. rewrite Hown. eauto.
  - intros a o Ha. rewrite Hobjs in Ha. eauto.
Qed.

Lemma well_counted_acquired (s s' : state) (a : addr) (o : Object) :
  well_counted s ->
  objs s !! a = Some o ->
  m_ref_count o < UINT32_MODULUS - 1 ->
  objs s' = <[a := with_ref_count (wrap32 (m_ref_count o + 1)) o]> (objs s) ->
  owners a (ptrs s') = S (owners a (ptrs s)) ->
  (forall a', a' <> a -> owners a' (ptrs s') = owners a' (ptrs s)) ->
  (forall l x, ptrs s' !! l = Some (Some x) -> is_Some (objs s !! x)) ->
  well_counted s'.
Proof.
  intros [Halive Hcount Howned] Ha Hmax Hobjs Hown Hothers Hlive.
  pose proof (Howned a o Ha) as Hrange.
  pose proof (Hcount a o Ha) as Hc.
  assert (Hw : wrap32 (m_ref_count o + 1) = m_ref_count o + 1)
    by (apply wrap32_succ; lia).
  split.
  - intros l x Hl. rewrite Hobjs. rewrite lookup_insert.
    case_decide; [eauto | now apply (Hlive l)].
  - intros x ox Hx. rewrite Hobjs, lookup_insert in Hx.
    case_decide as Hax.
    + subst x. injection Hx as <-. simpl. rewrite Hw, Hown. lia.
    + rewrite Hothers by congruence. eauto.
  - intros x ox Hx. rewrite Hobjs, lookup_insert in Hx.
    case_decide as Hax.
    + injection Hx as <-. simpl. rewrite Hw. lia.
    + eauto.
Qed.


(** The aliases [addr] and [loc] are unfolded before rewriting with the
    lemmas on [owners], which are stated over [positive]. *)
Ltac norm := unfold addr, loc in *.

Lemma owners_zero (a : positive) (m : gmap positive (option positive)) :
  (forall l, m !! l <> Some (Some a)) -> owners a m = 0%nat.
Proof.
  intros Hnone. unfold owners. apply map_size_empty_iff.
  apply map_empty_filter_2. intros l v Hl Hv. simpl in Hv. subst v.
  now apply (Hnone l).
Qed.

Lemma owners_insert_fresh (a l : positive) (v : option positive)
    (m : gmap positive (option positive)) :
  m !! l = None ->
  owners a (<[l := v]> m) = (owners a m + share a (Some v))%nat.
Proof.
  intros Hl. pose proof (owners_insert a l v m) as H.
  rewrite Hl, share_none in H. lia.
Qed.

Lemma well_counted_empty : well_counted empty_state.
Proof. split; intros ? ? H; simpl in H; now rewrite lookup_empty in H. Qed.

Lemma make_intrusive_well_counted (s : state) (this : loc) (value : Z) :
  well_counted s ->
  ptrs s !! this = None ->
  exists s',
    make_intrusive this value s = Some (tt, s') /\ well_counted s'.
Proof.
  intros [Halive Hcount Howned] Hfresh.
  set (a := fresh (dom (objs s))).
  assert (Ha : objs s !! a = None) by apply not_elem_of_dom, is_fresh.
  assert (Hnone : forall l, ptrs s !! l <> Some (Some a)).
  { intros l Hl. destruct (Halive l a Hl) as [o Ho].
    pose proof (eq_trans (eq_sym Ha) Ho). discriminate. }
  eexists. split; [apply make_intrusive_run|].
  unfold addr, loc in *. fold a. split; cbn [objs ptrs].
  - intros l x Hl. rewrite lookup_insert in Hl. rewrite lookup_insert.
    case_decide as Hthis.
    + injection Hl as <-. rewrite decide_True by reflexivity. eauto.
    + case_decide; [eauto | eauto].
  - intros x o Hx. rewrite lookup_insert in Hx.
    rewrite (owners_insert_fresh x this (Some a) _ Hfresh).
    case_decide as Hax.
    + subst x. injection Hx as <-. simpl.
      rewrite (owners_zero a _ Hnone), share_same. reflexivity.
    + rewrite share_other by congruence. rewrite Nat.add_0_r. eauto.
  - intros x o Hx. rewrite lookup_insert in Hx. case_decide as Hax.
    + injection Hx as <-. simpl. unfold UINT32_MODULUS. lia.
    + eauto.
Qed.

(** X14: construction keeps the bookkeeping.  From a state in which no
    pointer dangles and every object's counter is the number of its
    owners, at a storage not yet in use, the default constructor, the copy
    constructor, the move constructor, the constructor from a raw pointer
    to a live object (with the default flag) and [make_intrusive] all run
    without undefined behaviour and lead to such a state again; the
    constructors that add an owner need the counter below its largest
    value. *)
Theorem constructors_keep_the_count (s : state) (this : loc) :
  well_counted s ->
  ptrs s !! this = None ->
  (exists s',
      intrusive_ptr.ctor_default this s = Some (tt, s') /\ well_counted s')
  /\ (forall other v,
        ptrs s !! other = Some v ->
        (forall a o, v = Some a -> objs s !! a = Some o ->
                     m_ref_count o < UINT32_MODULUS - 1) ->
        exists s',
          intrusive_ptr.ctor_copy this other s = Some (tt, s')
          /\ well_counted s')
  /\ (forall other v,
        ptrs s !! other = Some v ->
        exists s',
          intrusive_ptr.ctor_move this other s = Some (tt, s')
          /\ well_counted s')
  /\ (forall a o,
        objs s !! a = Some o ->
        m_ref_count o < UINT32_MODULUS - 1 ->
        exists s',
          intrusive_ptr.ctor_raw this (Some a) true s = Some (tt, s')
          /\ well_counted s')
  /\ (forall value,
        exists s',
          make_intrusive this value s = Some (tt, s') /\ well_counted s').
Proof.
  intros Hwc Hfresh.
  assert (Hnull : well_counted (upd_ptrs (insert this None) s)).
  { apply (well_counted_rearranged s); [exact Hwc | reflexivity | |].
    - intros a. simpl; norm. rewrite (owners_insert_fresh a this None _ Hfresh).
      rewrite share_null. lia.
    - intros l a Hl. simpl in Hl; norm. rewrite lookup_insert in Hl.
      case_decide; [discriminate|]. now apply (wc_alive s Hwc l). }
  assert (Hshare : forall a o,
             objs s !! a = Some o ->
             m_ref_count o < UINT32_MODULUS - 1 ->
             well_counted
               (after_add_ref a o (upd_ptrs (insert this (Some a)) s))).
  { intros a o Ha Hmax.
    apply (well_counted_acquired s _ a o); [exact Hwc | exact Ha | exact Hmax
                                            | reflexivity | | |].
    - simpl; norm. rewrite (owners_insert_fresh a this (Some a) _ Hfresh).
      rewrite share_same. lia.
    - intros a' Hne. simpl; norm.
      rewrite (owners_insert_fresh a' this (Some a) _ Hfresh).
      rewrite share_other by exact Hne. lia.
    - intros l x Hl. simpl in Hl; norm. rewrite lookup_insert in Hl.
      case_decide; [injection Hl as <-; eauto|].
      now apply (wc_alive s Hwc l). }
  split; [|split; [|split; [|split]]].
  - exists (upd_ptrs (insert this None) s). now split.
  - intros other v Hother Hmax.
    assert (Hne : other <> this) by congruence.
    destruct v as [a|].
    + destruct (wc_alive s Hwc other a Hother) as [o Ha].
      eexists. split; [now apply (ctor_copy_run s other this a o)|].
      apply Hshare; eauto.
    + destruct (ctor_copy_slots s other this None Hne Hother)
        as (s' & Hrun & Hptrs & _); [discriminate|].
      exists s'. split; [exact Hrun|].
      unfold intrusive_ptr.ctor_copy in Hrun.
      erewrite bind_run in Hrun by reflexivity.
      erewrite bind_run in Hrun
        by (apply get_run; simpl; rewrite lookup_insert_ne by congruence;
            exact Hother).
      rewrite (set_null_run _ this None) in Hrun
        by (simpl; apply lookup_insert_eq).
      injection Hrun as <-.
      apply (well_counted_rearranged (upd_ptrs (insert this None) s));
        [exact Hnull | reflexivity | |].
      * intros a. simpl; norm. now rewrite insert_insert_eq.
      * intros l a Hl. simpl in Hl; norm. rewrite insert_insert_eq in Hl.
        now apply (wc_alive _ Hnull l).
  - intros other v Hother.
    assert (Hne : other <> this) by congruence.
    eexists. split; [apply (ctor_move_run s other this v Hother)|].
    apply (well_counted_rearranged s); [exact Hwc | reflexivity | |].
    + intros a. simpl; norm.
      pose proof (owners_insert a other None (ptrs s)) as H1.
      pose proof (owners_insert a this v (<[other := None]> (ptrs s))) as H2.
      norm.
      rewrite lookup_insert_ne in H2 by exact Hne.
      rewrite Hfresh, share_none in H2. rewrite Hother, share_null in H1.
      lia.
    + intros l a Hl. simpl in Hl; norm. rewrite lookup_insert in Hl.
      case_decide.
      * injection Hl as ->. now apply (wc_alive s Hwc other).
      * rewrite lookup_insert in Hl. case_decide; [discriminate|].
        now apply (wc_alive s Hwc l).
  - intros a o Ha Hmax.
    eexists. split; [apply (ctor_raw_add_ref_run s this a o Ha)|].
    now apply Hshare.
  - intros value. now apply make_intrusive_well_counted.
Qed.


Lemma well_counted_one_owner : well_counted one_owner.
Proof.
  split.
  - intros this a H. simpl in H.
    apply lookup_singleton_Some in H as [<- [= <-]]. now exists (mkObject 1 60).
  - intros a o H. simpl in H.
    apply lookup_singleton_Some in H as [<- <-]. reflexivity.
  - intros a o H. simpl in H.
    apply lookup_singleton_Some in H as [<- <-].
    unfold UINT32_MODULUS. simpl. lia.
Qed.

Lemma constructors_keep_the_count_witness :
  (exists s',
      intrusive_ptr.ctor_default 2 one_owner = Some (tt, s')
      /\ well_counted s')
  /\ (exists s',
        intrusive_ptr.ctor_copy 2 1 one_owner = Some (tt, s')
        /\ well_counted s')
  /\ (exists s',
        intrusive_ptr.ctor_move 2 1 one_owner = Some (tt, s')
        /\ well_counted s')
  /\ (exists s',
        intrusive_ptr.ctor_raw 2 (Some 1%positive) true one_owner
        = Some (tt, s')
        /\ well_counted s')
  /\ (exists s',
        make_intrusive 2 7 one_owner = Some (tt, s') /\ well_counted s').
Proof.
  destruct (constructors_keep_the_count one_owner 2 well_counted_one_owner
              eq_refl) as (Hdefault & Hcopy & Hmove & Hraw & Hmake).
  assert (Hmax : m_ref_count (mkObject 1 60) < UINT32_MODULUS - 1)
    by (unfold UINT32_MODULUS; simpl; lia).
  split; [exact Hdefault|].
  split.
  { apply (Hcopy 1%positive (Some 1%positive) eq_refl).
    intros a o [= <-] Ho. simpl in Ho.
    apply lookup_singleton_Some in Ho as [_ <-]. exact Hmax. }
  split; [exact (Hmove 1%positive (Some 1%positive) eq_refl)|].
  split; [exact (Hraw 1%positive (mkObject 1 60) eq_refl Hmax)|].
  exact (Hmake 7).
Defined.







(** X18: a raw pointer taken out with [detach] and put back with
    [reset(ptr, false)] gives back the state there was: no counter
    function is called on the way out or on the way in. *)
Theorem detach_then_reset_adopt_is_identity
    (s : state) (this : loc) (v : raw_ptr) :
  ptrs s !! this = Some v ->
  (ptr <- intrusive_ptr.detach this ;; intrusive_ptr.reset this ptr false) s
  = Some (tt, s).
Proof.
  intros Hthis.
  rewrite (bind_run _ _ _ _ _ (detach_run _ _ _ Hthis)).
  assert (Hnull : ptrs (upd_ptrs (insert this None) s) !! this = Some None)
    by (simpl; apply lookup_insert_eq).
  rewrite (reset_of_empty_is_set _ this v false Hnull).
  rewrite (set_adopt_run _ this None Hnull).
  do 2 f_equal. destruct s as [h pt cl]; unfold upd_ptrs; simpl in *.
  f_equal. rewrite insert_insert_eq. now apply insert_id.
Qed.

Lemma detach_then_reset_adopt_is_identity_witness :
  (ptr <- intrusive_ptr.detach 1 ;; intrusive_ptr.reset 1 ptr false) one_owner
  = Some (tt, one_owner).
Proof.
  apply (detach_then_reset_adopt_is_identity one_owner 1 (Some 1%positive)).
  reflexivity.
Defined.
